(** * Verification model of bfem (BrainF*ck Easy Mode)

    A shallow embedding of the interpreter in [src/src]: the tape
    ([tape.rs]), the parser and its run-length optimiser ([parser.rs]) and
    the tree-walking executor with its alias table ([program.rs]).

    Modelling conventions.
    - [u8] and [u128] values are [Z]; the code is assumed to be built with
      overflow checks (the default [cargo build]), so an arithmetic overflow
      of [u128] (as in [self.pointer -= count]) is a Rust panic, written
      [Panic] below.
    - [&mut self] methods returning [Result<(), BFError>] are state
      transformers that return the (possibly updated) state also on [Err].
    - A Rust panic ([unwrap] of [None], an out-of-bounds index, an
      arithmetic overflow) is [Panic]; running out of the fuel that bounds a
      [while] loop in the model is [Diverge] (it stands for a loop that
      does not terminate, e.g. waiting for input forever).
    - Source texts are ASCII, so [src.len()] (bytes) and [src.chars()]
      agree; they are Rocq [string]s. *)

From Stdlib Require Import ZArith List String Ascii Bool Lia.
Import ListNotations.
Open Scope Z_scope.

(** ** Errors ([errors.rs]) *)

Inductive BFErrors := RuntimeError.

Record BFError := mkBFError { error : BFErrors; message : string }.

(** ** Outcomes and the state/error monad *)

Inductive outcome (S A : Type) : Type :=
| Ok : S -> A -> outcome S A
| Err : S -> BFError -> outcome S A
| Panic : outcome S A
| Diverge : outcome S A.

Arguments Ok {S A}.
Arguments Err {S A}.
Arguments Panic {S A}.
Arguments Diverge {S A}.

Definition M (S A : Type) : Type := S -> outcome S A.

Definition ret {S A} (a : A) : M S A := fun s => Ok s a.

Definition bind {S A B} (m : M S A) (k : A -> M S B) : M S B :=
  fun s => match m s with
           | Ok s' a => k a s'
           | Err s' e => Err s' e
           | Panic => Panic
           | Diverge => Diverge
           end.

Definition get {S} : M S S := fun s => Ok s s.
Definition put {S} (s : S) : M S unit := fun _ => Ok s tt.
Definition throw {S A} (e : BFError) : M S A := fun s => Err s e.
Definition panic {S A} : M S A := fun _ => Panic.

Notation "'let*' x := m 'in' k" := (bind m (fun x => k))
  (at level 200, x pattern, m at level 100, k at level 200).

(** ** Integer helpers *)

Definition u8_max : Z := 255.
Definition u128_modulus : Z := 2 ^ 128.

(** [x as usize] on a 64-bit target. *)
Definition as_usize (x : Z) : Z := x mod 2 ^ 64.

(** [vec[i]] lookup and update by a [Z] index; [None] is an index out of
    bounds (a Rust panic). *)
Fixpoint zlookup {A} (l : list A) (i : Z) : option A :=
  match l with
  | [] => None
  | x :: l' => if Z.eqb i 0 then Some x else zlookup l' (i - 1)
  end.

Fixpoint zupdate {A} (l : list A) (i : Z) (v : A) : option (list A) :=
  match l with
  | [] => None
  | x :: l' =>
      if Z.eqb i 0 then Some (v :: l')
      else match zupdate l' (i - 1) v with
           | Some l'' => Some (x :: l'')
           | None => None
           end
  end.

Definition zlen {A} (l : list A) : Z := Z.of_nat (List.length l).

(** [zeros(size)] = [vec![0; size as usize]]. *)
Definition zeros (size : Z) : list Z := repeat 0 (Z.to_nat (as_usize size)).

(** Decimal rendering of a non-negative integer, as [format!("{}", n)]. *)
Fixpoint dec_aux (fuel : nat) (n : Z) (acc : string) : string :=
  match fuel with
  | O => acc
  | S f =>
      let d := ascii_of_nat (48 + Z.to_nat (n mod 10)) in
      if n <? 10 then String d acc else dec_aux f (n / 10) (String d acc)
  end.

Definition show_Z (n : Z) : string := dec_aux 40 n EmptyString.

(** ** The tape ([tape.rs]) *)

Inductive TapeMode := TCircular | Append | TPanic.
Inductive CellMode := CCircular | Nothing | CPanic.

Record Tape := mkTape {
  size : Z;
  cells : list Z;
  tape_behaviour : TapeMode;
  cell_behaviour : CellMode;
  pointer : Z;
  shift : Z
}.

Definition set_cells (t : Tape) (c : list Z) : Tape :=
  mkTape (size t) c (tape_behaviour t) (cell_behaviour t) (pointer t) (shift t).

Definition set_ptr (t : Tape) (p : Z) : Tape :=
  mkTape (size t) (cells t) (tape_behaviour t) (cell_behaviour t) p (shift t).

Record TapeFlags := mkTapeFlags {
  tape_mode : TapeMode;
  cell_mode : CellMode;
  tape_size : Z
}.

Definition Tape_new (flags : TapeFlags) : Tape :=
  mkTape (tape_size flags) (zeros (tape_size flags)) (tape_mode flags)
         (cell_mode flags) 0 0.

Definition realign : M Tape unit := fun t => Ok (set_ptr t 0) tt.

Definition clear : M Tape unit := fun t => Ok (set_cells t (zeros (size t))) tt.

(** [self.cells[self.pointer as usize]] *)
Definition get_value : M Tape Z := fun t =>
  match zlookup (cells t) (as_usize (pointer t)) with
  | Some v => Ok t v
  | None => Panic
  end.

Definition get_value_at_index (address : Z) : M Tape Z := fun t =>
  match zlookup (cells t) (as_usize address) with
  | Some v => Ok t v
  | None => Panic
  end.

Definition set_value (value : Z) : M Tape unit := fun t =>
  match zupdate (cells t) (as_usize (pointer t)) value with
  | Some c => Ok (set_cells t c) tt
  | None => Panic
  end.

(** [Tape::set_value_at_index] *)
Definition set_value_at_index (address value : Z) : M Tape unit := fun t =>
  match zupdate (cells t) (as_usize address) value with
  | Some c => Ok (set_cells t c) tt
  | None => Panic
  end.

Definition get_pointer : M Tape Z := fun t => Ok t (pointer t).

Definition set_pointer (value : Z) : M Tape unit := fun t => Ok (set_ptr t value) tt.

Definition tape_len (t : Tape) : Z := zlen (cells t).

(** [Tape::add] *)
Definition add (count : Z) : M Tape unit := fun t =>
  match cell_behaviour t with
  | CCircular =>
      (let* value := get_value in
       set_value ((value + count) mod 256)) t
  | Nothing =>
      (let* value := get_value in
       set_value (if value + count <=? u8_max then value + count else u8_max)) t
  | CPanic =>
      (let* value := get_value in
       if u8_max <? value + count then
         throw (mkBFError RuntimeError
           ("Cell " ++ show_Z (pointer t) ++ " (value " ++ show_Z value
            ++ ") would go above " ++ show_Z 0 ++ " if " ++ show_Z count
            ++ " were added")%string)
       else set_value (value + count)) t
  end.

(** [Tape::sub] *)
Definition sub (count : Z) : M Tape unit := fun t =>
  match cell_behaviour t with
  | CCircular =>
      (let* value := get_value in
       set_value ((value - count) mod 256)) t
  | Nothing =>
      (let* value := get_value in
       set_value (if count <=? value then value - count else 0)) t
  | CPanic =>
      (let* value := get_value in
       if value <? count then
         throw (mkBFError RuntimeError
           ("Cell " ++ show_Z (pointer t) ++ " (value " ++ show_Z value
            ++ ") would go below " ++ show_Z u8_max ++ " if " ++ show_Z count
            ++ " were subtracted")%string)
       else set_value (value - count)) t
  end.

(** [u128] subtraction [a - b] with overflow checks. *)
Definition u128_sub (a b : Z) : option Z := if a <? b then None else Some (a - b).

(** [u128] addition [a + b] with overflow checks. *)
Definition u128_add (a b : Z) : option Z :=
  if a + b <? u128_modulus then Some (a + b) else None.

(** [Tape::left] *)
Definition left (count : Z) : M Tape unit := fun t =>
  match tape_behaviour t with
  | TCircular =>
      if count <=? pointer t then Ok (set_ptr t (pointer t - count)) tt
      else match u128_sub (tape_len t) (count - pointer t) with
           | Some p => Ok (set_ptr t p) tt
           | None => Panic
           end
  | Append =>
      if count <=? pointer t then Ok (set_ptr t (pointer t - count)) tt
      else Ok (set_cells (set_ptr t 0) (zeros count ++ cells t)) tt
  | TPanic =>
      if pointer t <? count then
        Err t (mkBFError RuntimeError
          ("Tape pointer would be below " ++ show_Z 0 ++ " if moved left "
           ++ show_Z count ++ " spaces from " ++ show_Z (pointer t))%string)
      else Ok (set_ptr t (pointer t - count)) tt
  end.

(** [Tape::right]: note that its [Circular] arm is the same code as the
    [Circular] arm of [Tape::left]. *)
Definition right (count : Z) : M Tape unit := fun t =>
  match tape_behaviour t with
  | TCircular =>
      if count <=? pointer t then Ok (set_ptr t (pointer t - count)) tt
      else match u128_sub (tape_len t) (count - pointer t) with
           | Some p => Ok (set_ptr t p) tt
           | None => Panic
           end
  | Append =>
      match u128_add (pointer t) count with
      | Some p => Ok (set_cells (set_ptr t p) (cells t ++ zeros count)) tt
      | None => Panic
      end
  | TPanic =>
      if (u128_modulus <=? pointer t + count) || (size t <? pointer t + count) then
        Err t (mkBFError RuntimeError
          ("Tape pointer would be above " ++ show_Z (tape_len t)
           ++ " if moved right " ++ show_Z count ++ " spaces from "
           ++ show_Z (pointer t))%string)
      else Ok (set_ptr t (pointer t + count)) tt
  end.

(** ** Instructions ([program.rs]) *)

(** [miette::SourceSpan], as (offset, length). *)
Definition Span : Type := (nat * nat)%type.

Definition span_offset (s : Span) : nat := fst s.

#[local] Set Warnings "-register-all".

Inductive Instruction :=
| IAdd (count : Z)
| ISubtract (count : Z)
| ILoop (body : list (Span * Instruction))
| ILeft (count : Z)
| IRight (count : Z)
| IInput
| IOutput
| IGoto (name : string).

(** [DisableFlags] of [main.rs]. *)
Record DisableFlags := mkDisableFlags {
  disable_aliases : bool;
  disable_optimise : bool;
  disable_alloc : bool
}.

(** ** The alias table: [bimap::BiMap<String, u128>] *)

Definition BiMap : Type := list (string * Z).

Definition get_by_left (m : BiMap) (k : string) : option Z :=
  match find (fun '(a, _) => String.eqb a k) m with
  | Some (_, v) => Some v
  | None => None
  end.

Definition get_by_right (m : BiMap) (v : Z) : option string :=
  match find (fun '(_, b) => Z.eqb b v) m with
  | Some (k, _) => Some k
  | None => None
  end.

Definition contains_right (m : BiMap) (v : Z) : bool :=
  existsb (fun '(_, b) => Z.eqb b v) m.

(** [BiMap::insert]: removes every pair that shares the left or the right
    value with the new pair, then inserts the new pair. *)
Definition bimap_insert (m : BiMap) (k : string) (v : Z) : BiMap :=
  (k, v) :: filter (fun '(a, b) => negb (String.eqb a k) && negb (Z.eqb b v)) m.

(** ** The executor ([Program]) *)

Record PState := mkPState {
  tape : Tape;
  aliases : BiMap;
  flag : DisableFlags;
  input : list Z;     (** bytes the [getch] device will deliver *)
  output : list Z     (** characters printed so far, oldest first *)
}.

Definition set_tape (st : PState) (t : Tape) : PState :=
  mkPState t (aliases st) (flag st) (input st) (output st).

Definition set_aliases (st : PState) (a : BiMap) : PState :=
  mkPState (tape st) a (flag st) (input st) (output st).

(** Running a [Tape] method on [self.tape]. *)
Definition on_tape {A} (m : M Tape A) : M PState A := fun st =>
  match m (tape st) with
  | Ok t a => Ok (set_tape st t) a
  | Err t e => Err (set_tape st t) e
  | Panic => Panic
  | Diverge => Diverge
  end.

(** The backward scan of [assign_alias_address]:
    [while get_value_at_index(index) != 0 || contains_right(&index) { index -= 1 }].
    The fuel bounds the number of iterations; [index] reaches [0] first. *)
Fixpoint alias_scan (fuel : nat) (index : Z) : M PState Z :=
  match fuel with
  | O => fun _ => Diverge
  | S f =>
      let* v := on_tape (get_value_at_index index) in
      let* st := get in
      if negb (Z.eqb v 0) || contains_right (aliases st) index then
        match u128_sub index 1 with
        | Some index' => alias_scan f index'
        | None => panic
        end
      else ret index
  end.

(** [Program::assign_alias_address] *)
Definition assign_alias_address (key : string) : M PState Z :=
  let* st := get in
  match u128_sub (tape_len (tape st)) 1 with
  | None => panic
  | Some start =>
      let* index := alias_scan (S (Z.to_nat start)) start in
      let* st := get in
      let* _ := put (set_aliases st (bimap_insert (aliases st) key index)) in
      ret index
  end.

(** [Program::run_prealloc] *)
Fixpoint run_prealloc (names : list string) : M PState unit :=
  match names with
  | [] => ret tt
  | n :: ns => let* _ := assign_alias_address n in run_prealloc ns
  end.

(** The [getch] polling loop followed by [self.tape.set_value]: with no byte
    left the loop spins forever. *)
Definition read_input : M PState unit := fun st =>
  match input st with
  | [] => Diverge
  | c :: rest =>
      on_tape (set_value c)
        (mkPState (tape st) (aliases st) (flag st) rest (output st))
  end.

(** [print!("{}", self.tape.get_value() as char)] *)
Definition write_output : M PState unit :=
  let* v := on_tape get_value in
  fun st => Ok (mkPState (tape st) (aliases st) (flag st) (input st)
                         (output st ++ [v])) tt.

Definition alias_not_found_message (key : string) : string :=
  ("Alias " ++ key ++ " was not found and pre-alloc was not disabled. "
   ++ "This may indicate an error in the compiler")%string.

(** [Program::run_one]. The fuel bounds the nesting of [run_one] calls and
    the number of passes of each [Loop]. *)
Fixpoint run_one (fuel : nat) (ins : Instruction) : M PState unit :=
  match fuel with
  | O => fun _ => Diverge
  | S f =>
      match ins with
      | IAdd count => on_tape (add count)
      | ISubtract count => on_tape (sub count)
      | ILoop body =>
          let fix run_body (l : list (Span * Instruction)) : M PState unit :=
            match l with
            | [] => ret tt
            | (_, i) :: l' => let* _ := run_one f i in run_body l'
            end in
          let fix passes (n : nat) : M PState unit :=
            match n with
            | O => fun _ => Diverge
            | S n' =>
                let* v := on_tape get_value in
                if Z.eqb v 0 then ret tt
                else let* _ := run_body body in passes n'
            end in
          passes f
      | ILeft count => on_tape (left count)
      | IRight count => on_tape (right count)
      | IInput => read_input
      | IOutput => write_output
      | IGoto key =>
          let* st := get in
          match get_by_left (aliases st) key with
          | Some address => on_tape (set_pointer address)
          | None =>
              if disable_alloc (flag st) then
                let* index := assign_alias_address key in
                on_tape (set_pointer index)
              else throw (mkBFError RuntimeError (alias_not_found_message key))
          end
      end
  end.

(** The loop of [Program::run] over the top-level instructions. *)
Fixpoint run_all (fuel : nat) (l : list (Span * Instruction)) : M PState unit :=
  match l with
  | [] => ret tt
  | (_, i) :: l' => let* _ := run_one fuel i in run_all fuel l'
  end.

(** [Program::run]: [clear], [realign], then every instruction in order. *)
Definition run (fuel : nat) (instructions : list (Span * Instruction)) : M PState unit :=
  let* _ := on_tape clear in
  let* _ := on_tape realign in
  run_all fuel instructions.

(** ** The parser ([parser.rs]) *)

Record Parser := mkParser {
  src : string;
  pflag : DisableFlags;
  index : nat;
  p_aliases : list string   (** [HashSet<String>] *)
}.

Definition Parser_new (s : string) (f : DisableFlags) : Parser := mkParser s f 0 [].

Definition set_index (p : Parser) (i : nat) : Parser :=
  mkParser (src p) (pflag p) i (p_aliases p).

(** [HashSet::insert] *)
Definition set_insert (s : list string) (x : string) : list string :=
  if existsb (String.eqb x) s then s else s ++ [x].

(** [char::is_whitespace] on ASCII characters. *)
Definition is_whitespace (c : ascii) : bool :=
  let n := nat_of_ascii c in
  (Nat.eqb n 32 || ((9 <=? n) && (n <=? 13))%nat).

(** [self.src.chars().nth(self.index).unwrap()] *)
Definition current_char : M Parser ascii := fun p =>
  match String.get (index p) (src p) with
  | Some c => Ok p c
  | None => Panic
  end.

Definition advance : M Parser unit := fun p => Ok (set_index p (S (index p))) tt.

(** The whitespace-skipping loop at the start of [parse_one]. *)
Fixpoint skip_whitespace (fuel : nat) : M Parser ascii :=
  let* c := current_char in
  if is_whitespace c then
    match fuel with
    | O => fun _ => Diverge
    | S f => let* _ := advance in skip_whitespace f
    end
  else ret c.

(** The loop accumulating an alias name up to [}]. *)
Fixpoint read_alias (fuel : nat) (name : string) : M Parser string :=
  let* c := current_char in
  if Ascii.eqb c "}"%char then ret name
  else match fuel with
       | O => fun _ => Diverge
       | S f => let* _ := advance in read_alias f (name ++ String c EmptyString)%string
       end.

Definition mk_span (start stop : nat) : Span := (start, (stop - start)%nat).

(** [Parser::parse_one], with the loop over the body of a [[...]] as
    [parse_loop]. The fuel bounds the nesting of the calls; [parse] supplies
    [2 * length + 1], enough for every text (each call consumes a
    character). *)
Fixpoint parse_one (fuel : nat) : M Parser (Span * Instruction) :=
  match fuel with
  | O => fun _ => Diverge
  | S f => fun p0 =>
      (let* c := skip_whitespace (String.length (src p0)) in
       let* p := get in
       let start_index := index p in
       let unit_ins (i : Instruction) : M Parser (Span * Instruction) :=
         let* _ := advance in
         let* p := get in
         ret (mk_span start_index (index p), i) in
       if Ascii.eqb c "+"%char then unit_ins (IAdd 1)
       else if Ascii.eqb c "-"%char then unit_ins (ISubtract 1)
       else if Ascii.eqb c ">"%char then unit_ins (IRight 1)
       else if Ascii.eqb c "<"%char then unit_ins (ILeft 1)
       else if Ascii.eqb c "["%char then
         let* _ := advance in
         let* body := parse_loop f [] in
         let* _ := advance in
         let* p := get in
         ret (mk_span start_index (index p), ILoop body)
       else if Ascii.eqb c "."%char then unit_ins IOutput
       else if Ascii.eqb c ","%char then unit_ins IInput
       else if Ascii.eqb c "{"%char && negb (disable_aliases (pflag p)) then
         let* _ := advance in
         let* name := read_alias (String.length (src p)) EmptyString in
         let* _ := advance in
         let* p := get in
         let* _ := put (mkParser (src p) (pflag p) (index p)
                                 (set_insert (p_aliases p) name)) in
         ret (mk_span start_index (index p), IGoto name)
       else panic) p0
  end
with parse_loop (fuel : nat) (acc : list (Span * Instruction))
  : M Parser (list (Span * Instruction)) :=
  match fuel with
  | O => fun _ => Diverge
  | S f =>
      let* c := current_char in
      if Ascii.eqb c "]"%char then ret (rev acc)
      else let* ins := parse_one f in parse_loop f (ins :: acc)
  end.

(** ** The optimiser ([Parser::optimise_consecutive]) *)

(** [Parser::is_instruction_consecutive] *)
Definition is_instruction_consecutive (i : Instruction) : bool :=
  match i with
  | IGoto _ | IInput | IOutput | ILoop _ => false
  | _ => true
  end.

(** [std::mem::discriminant] *)
Definition discriminant (i : Instruction) : nat :=
  match i with
  | IAdd _ => 0 | ISubtract _ => 1 | ILoop _ => 2 | ILeft _ => 3
  | IRight _ => 4 | IInput => 5 | IOutput => 6 | IGoto _ => 7
  end.

(** [Parser::set_count]: [count as u8] and [count as u128]. *)
Definition set_count (i : Instruction) (count : nat) : Instruction :=
  match i with
  | IAdd _ => IAdd (Z.of_nat count mod 256)
  | ISubtract _ => ISubtract (Z.of_nat count mod 256)
  | ILeft _ => ILeft (Z.of_nat count mod u128_modulus)
  | IRight _ => IRight (Z.of_nat count mod u128_modulus)
  | _ => i
  end.

(** [Parser::is_consecutive_okay] *)
Definition is_consecutive_okay (l r : Instruction) : bool :=
  is_instruction_consecutive l && is_instruction_consecutive r
  && Nat.eqb (discriminant l) (discriminant r).

Definition dummy_entry : Span * Instruction := ((0, 0)%nat, IOutput).

(** The inner [while (index + count) < instructions.len() - 1] loop that
    stretches the merge window. [instructions[index + count]] is in bounds
    under the loop guard; the second read after [count += 1] only feeds a
    dead assignment and is also in bounds, so it is omitted. *)
Fixpoint stretch (fuel : nat) (instructions : list (Span * Instruction))
    (start : Instruction) (idx count : nat) : nat :=
  match fuel with
  | O => count
  | S f =>
      if (idx + count <? List.length instructions - 1)%nat then
        let '(_, end_instruction) := nth (idx + count) instructions dummy_entry in
        if is_consecutive_okay start end_instruction
        then stretch f instructions start idx (S count)
        else count
      else count
  end.

(** The outer [while index < instructions.len()] loop; [opt] is the
    recursive call used for [Loop] bodies. Each iteration advances [index]
    by at least one, so [List.length instructions] iterations suffice. *)
Fixpoint optimise_from (opt : list (Span * Instruction) -> list (Span * Instruction))
    (fuel : nat) (instructions : list (Span * Instruction)) (idx : nat)
    : list (Span * Instruction) :=
  match fuel with
  | O => []
  | S f =>
      if (idx <? List.length instructions)%nat then
        let '(start_span, start_instruction) := nth idx instructions dummy_entry in
        match start_instruction with
        | ILoop inner_instructions =>
            ((span_offset start_span, List.length inner_instructions),
             ILoop (opt inner_instructions))
            :: optimise_from opt f instructions (S idx)
        | IGoto key =>
            ((span_offset start_span, (String.length key + 2)%nat), IGoto key)
            :: optimise_from opt f instructions (S idx)
        | _ =>
            let count :=
              stretch (List.length instructions) instructions start_instruction idx 1 in
            ((span_offset start_span, count), set_count start_instruction count)
            :: optimise_from opt f instructions (idx + count)
        end
      else []
  end.

(** Nesting depth of an instruction tree. *)
Fixpoint ins_depth (i : Instruction) : nat :=
  match i with
  | ILoop body =>
      S (fold_right (fun x acc => Nat.max (ins_depth (snd x)) acc) 0%nat body)
  | _ => 0
  end.

Definition depth (l : list (Span * Instruction)) : nat :=
  fold_right (fun x acc => Nat.max (ins_depth (snd x)) acc) 0%nat l.

(** [optimise_consecutive] unfolded [d] levels of [Loop] nesting. *)
Fixpoint optimise_depth (d : nat) (instructions : list (Span * Instruction))
    : list (Span * Instruction) :=
  match d with
  | O => instructions
  | S d' => optimise_from (optimise_depth d') (List.length instructions) instructions 0
  end.

(** [Parser::optimise_consecutive] *)
Definition optimise_consecutive (instructions : list (Span * Instruction))
    : list (Span * Instruction) :=
  optimise_depth (S (depth instructions)) instructions.

(** The top-level loop of [Parser::parse]. *)
Fixpoint parse_top (fuel : nat) (acc : list (Span * Instruction))
  : M Parser (list (Span * Instruction)) :=
  match fuel with
  | O => fun _ => Diverge
  | S f => fun p =>
      (if (index p <? String.length (src p))%nat then
         let* ins := parse_one (2 * String.length (src p) + 1) in
         parse_top f (ins :: acc)
       else ret (rev acc)) p
  end.

(** [Parser::parse] *)
Definition parse : M Parser (list (Span * Instruction)) := fun p =>
  (let* instructions := parse_top (S (String.length (src p))) [] in
   if disable_optimise (pflag p) then ret instructions
   else ret (optimise_consecutive instructions)) p.

(** ** [Program::setup] and the [Run] command of [main.rs] *)

(** [Program::setup]: pre-allocation of every alias name the parser saw. *)
Definition setup (names : list string) : M PState unit := fun st =>
  if disable_alloc (flag st) then Ok st tt else run_prealloc names st.

(** Result of the [Run] command: [Program::read_file] (parse), [setup],
    [run]. Returns the final executor state or the fault. *)
Definition run_source (s : string) (dflags : DisableFlags) (tflags : TapeFlags)
    (inp : list Z) (fuel : nat) : outcome PState unit :=
  match parse (Parser_new s dflags) with
  | Ok p instructions =>
      (let* _ := setup (p_aliases p) in run fuel instructions)
        (mkPState (Tape_new tflags) [] dflags inp [])
  | Err _ e => Err (mkPState (Tape_new tflags) [] dflags inp []) e
  | Panic => Panic
  | Diverge => Diverge
  end.

(** ** Helpers for concrete runs *)

(** A tape built by [Tape::new] with its pointer moved to [p]. *)
Definition tape_at (tm : TapeMode) (cm : CellMode) (n p : Z) : Tape :=
  set_ptr (Tape_new (mkTapeFlags tm cm n)) p.

(** [n] copies of the character [c]. *)
Fixpoint rep_char (n : nat) (c : ascii) : string :=
  match n with
  | O => EmptyString
  | S n' => String c (rep_char n' c)
  end.

(** The output printed by a run, whatever its outcome. *)
Definition printed (o : outcome PState unit) : option (list Z) :=
  match o with
  | Ok st _ => Some (output st)
  | Err st _ => Some (output st)
  | _ => None
  end.

(** The cells of the tape at the end of a run. *)
Definition final_cells (o : outcome PState unit) : option (list Z) :=
  match o with
  | Ok st _ => Some (cells (tape st))
  | Err st _ => Some (cells (tape st))
  | _ => None
  end.

Definition instructions_of (o : outcome Parser (list (Span * Instruction)))
  : option (list (Span * Instruction)) :=
  match o with
  | Ok _ l => Some l
  | _ => None
  end.

(** ** Lemmas on list access by [Z] index *)

Lemma zlookup_zupdate_same {A} (l : list A) (i : Z) (v w : A) :
  zlookup l i = Some v ->
  exists l', zupdate l i w = Some l' /\ zlookup l' i = Some w /\ List.length l' = List.length l.
Proof.
  revert i; induction l as [|x l IH]; intros i H; simpl in *; [discriminate|].
  destruct (Z.eqb_spec i 0).
  - exists (w :: l); simpl; subst; repeat split; reflexivity.
  - destruct (IH (i - 1) H) as [l' [H1 [H2 H3]]].
    rewrite H1; exists (x :: l'); simpl.
    destruct (Z.eqb_spec i 0); [contradiction|]; repeat split; auto.
Qed.

Lemma zlookup_in_range {A} (l : list A) (i : Z) :
  0 <= i < zlen l -> exists v, zlookup l i = Some v.
Proof.
  unfold zlen; revert i; induction l as [|x l IH]; intros i H; simpl in *; [lia|].
  destruct (Z.eqb_spec i 0); [eauto|].
  apply IH; lia.
Qed.

Lemma zlookup_some_range {A} (l : list A) (i : Z) (v : A) :
  zlookup l i = Some v -> 0 <= i < zlen l.
Proof.
  unfold zlen; revert i; induction l as [|x l IH]; intros i H; simpl in *;
    [discriminate|].
  destruct (Z.eqb_spec i 0); [lia|].
  specialize (IH _ H); lia.
Qed.

Lemma as_usize_small (x : Z) : 0 <= x < 2 ^ 64 -> as_usize x = x.
Proof. intros H; unfold as_usize; apply Z.mod_small; exact H. Qed.

(** Writing the current cell keeps the pointer and the policies. *)
Lemma set_value_spec (t : Tape) (v w : Z) :
  get_value t = Ok t v ->
  exists t', set_value w t = Ok t' tt /\ get_value t' = Ok t' w /\
    pointer t' = pointer t /\ cell_behaviour t' = cell_behaviour t /\
    tape_len t' = tape_len t.
Proof.
  unfold get_value, set_value, tape_len, zlen.
  destruct (zlookup (cells t) (as_usize (pointer t))) eqn:E; [|discriminate].
  intros _.
  destruct (zlookup_zupdate_same _ _ _ w E) as [l' [H1 [H2 H3]]].
  rewrite H1; eexists; split; [reflexivity|]; simpl; rewrite H2, H3; auto.
Qed.

(** ** C1: pointer movement under the Circular tape policy *)

(** C1 (code_bug). Under [Circular], [right] runs the same code as [left]:
    on a tape of 5 cells with pointer 0, [left 1] gives pointer 4 as the spec
    says, but [right 1] also gives pointer 4 (not 1); and a move of more
    than the tape length does not wrap modulo the length but panics on the
    [u128] subtraction. *)
Theorem circular_right_moves_left :
  left 1 (tape_at TCircular CCircular 5 0) = Ok (tape_at TCircular CCircular 5 4) tt /\
  right 1 (tape_at TCircular CCircular 5 0) = Ok (tape_at TCircular CCircular 5 4) tt /\
  right 1 (tape_at TCircular CCircular 5 2) = Ok (tape_at TCircular CCircular 5 1) tt /\
  left 6 (tape_at TCircular CCircular 5 0) = Panic.
Proof. vm_compute; repeat split; reflexivity. Qed.

(** ** C2: the optimiser against the unoptimised tree *)

(** A run of 256 [+] followed by [.]: the optimiser merges the run into
    [Add(256 as u8)] = [Add(0)]. *)
Definition add_run_256 : string := (rep_char 256 "+" ++ ".")%string.

Definition clamp_tape_flags : TapeFlags := mkTapeFlags TCircular Nothing 1.

Definition flags_optimise (b : bool) : DisableFlags := mkDisableFlags false (negb b) false.

(** C2 (code_bug). With the Clamp ([Nothing]) cell policy on a one-cell
    tape, running [+] x 256 then [.] unoptimised saturates the cell at 255
    and prints 255, while the optimised tree, where [set_count] truncates
    the run length 256 with [as u8] to [Add(0)], leaves the cell at 0 and
    prints 0. *)
Theorem optimiser_changes_clamped_output :
  printed (run_source add_run_256 (flags_optimise false) clamp_tape_flags [] 5) = Some [255] /\
  final_cells (run_source add_run_256 (flags_optimise false) clamp_tape_flags [] 5) = Some [255] /\
  printed (run_source add_run_256 (flags_optimise true) clamp_tape_flags [] 5) = Some [0] /\
  final_cells (run_source add_run_256 (flags_optimise true) clamp_tape_flags [] 5) = Some [0].
Proof. vm_compute; repeat split; reflexivity. Qed.

(** ** C4: the merge window and the last element *)

(** C4 (code_bug). The window guard [index + count < len - 1] never lets
    the last element join a run: [++] stays two [Add(1)], [+++] becomes
    [Add(2)] followed by [Add(1)], and a trailing run after [.] is not
    merged either. *)
Theorem trailing_run_not_merged :
  instructions_of (parse (Parser_new "++" (flags_optimise true)))
    = Some [((0, 1)%nat, IAdd 1); ((1, 1)%nat, IAdd 1)] /\
  instructions_of (parse (Parser_new "+++" (flags_optimise true)))
    = Some [((0, 2)%nat, IAdd 2); ((2, 1)%nat, IAdd 1)] /\
  instructions_of (parse (Parser_new ".>>" (flags_optimise true)))
    = Some [((0, 1)%nat, IOutput); ((1, 1)%nat, IRight 1); ((2, 1)%nat, IRight 1)].
Proof. vm_compute; repeat split; reflexivity. Qed.

(** ** C7: the Append tape policy *)

(** C7 (code_bug). The spec's example holds (5 cells, pointer 4, [right 3]
    gives 8 cells and pointer 7), but under [Append] [right] appends [count]
    zero cells on every move, also one that stays inside the tape: 5 cells,
    pointer 0, [right 1] gives 6 cells. [left], the sibling, grows the tape
    only when the move crosses the start. *)
Theorem append_right_always_grows :
  right 3 (tape_at Append CCircular 5 4)
    = Ok (mkTape 5 (repeat 0 8) Append CCircular 7 0) tt /\
  right 1 (tape_at Append CCircular 5 0)
    = Ok (mkTape 5 (repeat 0 6) Append CCircular 1 0) tt /\
  left 1 (tape_at Append CCircular 5 1)
    = Ok (mkTape 5 (repeat 0 5) Append CCircular 0 0) tt.
Proof. vm_compute; repeat split; reflexivity. Qed.

(** ** C8: cell arithmetic under the three cell policies *)

(** C8. From a current cell holding 0, [add 200] leaves 200; a second
    [add 100] then leaves 44 under [Circular], 255 under Clamp
    ([Nothing]), and under Fail ([Panic]) returns an error whose message
    names the cell address, its value 200 and the delta 100, the tape
    (and so the cell, still 200) being left as it was. *)
Theorem add_200_then_100 (t : Tape) (Hv : get_value t = Ok t 0) :
  exists t1, add 200 t = Ok t1 tt /\ get_value t1 = Ok t1 200 /\
    match cell_behaviour t with
    | CCircular => exists t2, add 100 t1 = Ok t2 tt /\ get_value t2 = Ok t2 44
    | Nothing => exists t2, add 100 t1 = Ok t2 tt /\ get_value t2 = Ok t2 255
    | CPanic =>
        add 100 t1 = Err t1 (mkBFError RuntimeError
          ("Cell " ++ show_Z (pointer t) ++ " (value 200) would go above 0 if 100 were added")%string)
    end.
Proof.
  destruct (set_value_spec t 0 200 Hv) as [t1 [E1 [G1 [P1 [C1 _]]]]].
  exists t1.
  assert (A1 : add 200 t = Ok t1 tt).
  { unfold add, bind; destruct (cell_behaviour t); rewrite Hv; exact E1. }
  split; [exact A1|]; split; [exact G1|].
  destruct (cell_behaviour t) eqn:Hc.
  - destruct (set_value_spec t1 200 44 G1) as [t2 [E2 [G2 _]]].
    exists t2; split; [|exact G2].
    unfold add, bind; rewrite C1; rewrite G1; exact E2.
  - destruct (set_value_spec t1 200 255 G1) as [t2 [E2 [G2 _]]].
    exists t2; split; [|exact G2].
    unfold add, bind; rewrite C1; rewrite G1; exact E2.
  - unfold add, bind; rewrite C1; rewrite G1; rewrite P1; reflexivity.
Qed.

(** ** C10: a missing alias after pre-allocation *)

(** The error reported by [Goto] for an alias missing although
    pre-allocation ran. *)
Definition goto_missing_error (key : string) : BFError :=
  mkBFError RuntimeError (alias_not_found_message key).


Definition state_no_alias : PState :=
  mkPState (Tape_new (mkTapeFlags TCircular CPanic 3)) [] (mkDisableFlags false false false) [] [].


(** ** C9: alias allocation *)

(** An address [assign_alias_address] may hand out: its cell holds 0 and
    no name of the table is bound to it. *)
Definition alias_eligible (st : PState) (a : Z) : Prop :=
  zlookup (cells (tape st)) a = Some 0 /\ contains_right (aliases st) a = false.

Lemma set_tape_same (st : PState) : set_tape st (tape st) = st.
Proof. destruct st; reflexivity. Qed.

Lemma read_cell_at (st : PState) (a v : Z) :
  0 <= a < 2 ^ 64 -> zlookup (cells (tape st)) a = Some v ->
  on_tape (get_value_at_index a) st = Ok st v.
Proof.
  intros Ha Hv; unfold on_tape, get_value_at_index.
  rewrite as_usize_small by lia; rewrite Hv, set_tape_same; reflexivity.
Qed.

Lemma alias_scan_spec (st : PState) (Hlen : tape_len (tape st) <= 2 ^ 64) :
  forall n index,
    0 <= index < tape_len (tape st) -> (Z.to_nat index < n)%nat ->
    (exists a, 0 <= a <= index /\ alias_eligible st a) ->
    exists a, alias_scan n index st = Ok st a /\ 0 <= a <= index /\
      alias_eligible st a /\
      (forall b, a < b <= index -> ~ alias_eligible st b).
Proof.
  induction n as [|f IH]; intros index Hi Hn Hex; [lia|].
  destruct (zlookup_in_range (cells (tape st)) index) as [v Hv]; [exact Hi|].
  simpl; unfold bind at 1; rewrite (read_cell_at st index v) by (auto; lia).
  unfold bind, get.
  destruct (negb (v =? 0) || contains_right (aliases st) index) eqn:Hc.
  - (* the scan steps down *)
    assert (Hne : ~ alias_eligible st index).
    { intros [H1 H2]; rewrite Hv in H1; injection H1 as ->.
      rewrite H2 in Hc; discriminate. }
    destruct Hex as [a [Ha Hea]].
    assert (Hlt : a < index) by (destruct (Z.eq_dec a index); [subst; contradiction|lia]).
    unfold u128_sub; destruct (Z.ltb_spec index 1); [lia|].
    destruct (IH (index - 1)) as [a' [Hs [Ha' [He' Hmax]]]];
      [lia|lia|exists a; split; [lia|exact Hea]|].
    exists a'; split; [exact Hs|]; split; [lia|]; split; [exact He'|].
    intros b Hb; destruct (Z.eq_dec b index); [subst; exact Hne|].
    apply Hmax; lia.
  - (* the current address is free *)
    apply orb_false_iff in Hc as [Hv0 Hcr].
    apply negb_false_iff, Z.eqb_eq in Hv0; subst v.
    exists index; split; [reflexivity|]; split; [lia|]; split; [split; assumption|].
    intros b Hb; lia.
Qed.

(** C9. [assign_alias_address(name)] for a name not bound yet, on a tape of
    [L >= 1] cells with at least one free address: it returns the highest
    address [a] whose cell holds 0 and which no name claims, every address
    above [a] being taken (nonzero cell or already claimed); afterwards
    [name] maps to [a] and [a] maps back to [name]; the tape is unchanged. *)
Theorem assign_alias_address_highest_free (st : PState) (key : string)
    (Hunbound : get_by_left (aliases st) key = None)
    (Hlen : 1 <= tape_len (tape st) <= 2 ^ 64)
    (Hfree : exists a, 0 <= a < tape_len (tape st) /\ alias_eligible st a) :
  exists a st',
    assign_alias_address key st = Ok st' a /\
    0 <= a < tape_len (tape st) /\ alias_eligible st a /\
    (forall b, a < b < tape_len (tape st) -> ~ alias_eligible st b) /\
    get_by_left (aliases st') key = Some a /\
    get_by_right (aliases st') a = Some key /\
    tape st' = tape st.
Proof.
  unfold assign_alias_address, bind at 1, get at 1.
  unfold u128_sub; destruct (Z.ltb_spec (tape_len (tape st)) 1); [lia|].
  destruct (alias_scan_spec st ltac:(lia) (S (Z.to_nat (tape_len (tape st) - 1)))
              (tape_len (tape st) - 1)) as [a [Hs [Ha [He Hmax]]]];
    [lia|lia|destruct Hfree as [a [Ha Hea]]; exists a; split; [lia|exact Hea]|].
  unfold bind; rewrite Hs; unfold get, put, ret.
  exists a, (set_aliases st (bimap_insert (aliases st) key a)).
  split; [reflexivity|]; split; [lia|]; split; [exact He|]; split.
  - intros b Hb; apply Hmax; lia.
  - unfold get_by_left, get_by_right, bimap_insert; simpl.
    rewrite String.eqb_refl, Z.eqb_refl; auto.
Qed.

(** The spec's example: on a 10-cell tape whose only nonzero cell is at
    index 2, allocating [A] then [B] binds [A] to 9 and [B] to 8. *)
Lemma alias_allocation_example :
  let st := mkPState (set_cells (Tape_new (mkTapeFlags TCircular CCircular 10))
                        [0; 0; 7; 0; 0; 0; 0; 0; 0; 0])
                     [] (mkDisableFlags false false false) [] [] in
  match run_prealloc ["A"; "B"]%string st with
  | Ok st' _ => get_by_left (aliases st') "A" = Some 9 /\
                get_by_left (aliases st') "B" = Some 8
  | _ => False
  end.
Proof. vm_compute; split; reflexivity. Qed.

(** ** C6: the pointer stays a valid index *)

Definition pointer_valid (t : Tape) : Prop := 0 <= pointer t < tape_len t.

Lemma get_value_state (t t' : Tape) (v : Z) : get_value t = Ok t' v -> t' = t.
Proof. unfold get_value; destruct zlookup; congruence. Qed.

Lemma zupdate_length {A} (l l' : list A) (i : Z) (v : A) :
  zupdate l i v = Some l' -> List.length l' = List.length l.
Proof.
  revert i l'; induction l as [|x l IH]; intros i l' H; simpl in *; [discriminate|].
  destruct (Z.eqb i 0); [injection H as <-; reflexivity|].
  destruct (zupdate l (i - 1) v) eqn:E; [|discriminate].
  injection H as <-; simpl; rewrite (IH _ _ E); reflexivity.
Qed.

Lemma set_value_frame (t t' : Tape) (w : Z) :
  set_value w t = Ok t' tt -> pointer t' = pointer t /\ tape_len t' = tape_len t.
Proof.
  unfold set_value; destruct zupdate eqn:E; [|discriminate].
  intros H; injection H as <-; unfold tape_len, zlen; simpl.
  rewrite (zupdate_length _ _ _ _ E); auto.
Qed.

(** [add] and [sub] move neither the pointer nor the tape end. *)
Lemma add_frame (c : Z) (t t' : Tape) :
  add c t = Ok t' tt -> pointer t' = pointer t /\ tape_len t' = tape_len t.
Proof.
  unfold add, bind, throw; destruct (cell_behaviour t);
    destruct (get_value t) eqn:G; try discriminate;
    apply get_value_state in G; subst;
    [apply set_value_frame| apply set_value_frame|].
  match goal with |- context [if ?b then _ else _] => destruct b end;
    [discriminate|apply set_value_frame].
Qed.

Lemma sub_frame (c : Z) (t t' : Tape) :
  sub c t = Ok t' tt -> pointer t' = pointer t /\ tape_len t' = tape_len t.
Proof.
  unfold sub, bind, throw; destruct (cell_behaviour t);
    destruct (get_value t) eqn:G; try discriminate;
    apply get_value_state in G; subst;
    [apply set_value_frame| apply set_value_frame|].
  match goal with |- context [if ?b then _ else _] => destruct b end;
    [discriminate|apply set_value_frame].
Qed.

Lemma zlen_app {A} (l1 l2 : list A) : zlen (l1 ++ l2) = zlen l1 + zlen l2.
Proof. unfold zlen; rewrite length_app; lia. Qed.

Lemma zlen_zeros (c : Z) : 0 <= c < 2 ^ 64 -> zlen (zeros c) = c.
Proof.
  intros H; unfold zlen, zeros; rewrite repeat_length, as_usize_small by exact H; lia.
Qed.

Ltac circular_case :=
  match goal with
  | |- context [if ?c <=? ?p then _ else _] =>
      destruct (Z.leb_spec c p);
      [ let H := fresh in intros H; injection H as <-;
        unfold pointer_valid, tape_len, zlen in *; simpl; lia
      | unfold u128_sub;
        match goal with
        | |- context [if ?a <? ?b then _ else _] =>
            destruct (Z.ltb_spec a b);
            [ discriminate
            | let H := fresh in intros H; injection H as <-;
              unfold pointer_valid, tape_len, zlen in *; simpl; lia ]
        end ]
  end.

(** C6 (amended). From a tape whose pointer is a valid index, every [add]
    and [sub], every [left], and every [right] under the [Circular] and
    [Append] policies that returns [Ok] (for a move count below [2^64])
    leaves the pointer a valid index. [realign] sets it to 0, valid iff the
    tape is nonempty; [set_pointer] (movePointerTo) stores its argument
    unchecked; [clear] keeps the pointer and resets the cells to the
    configured [size], so the pointer is valid afterwards only if it is
    below [size] (which an [Append] growth can exceed). *)
Theorem tape_ops_keep_pointer_valid (t : Tape) (Hv : pointer_valid t) :
  (forall c t', add c t = Ok t' tt -> pointer_valid t') /\
  (forall c t', sub c t = Ok t' tt -> pointer_valid t') /\
  (forall c t', 0 <= c < 2 ^ 64 -> left c t = Ok t' tt -> pointer_valid t') /\
  (forall c t', 0 <= c < 2 ^ 64 -> tape_behaviour t <> TPanic ->
     right c t = Ok t' tt -> pointer_valid t') /\
  (forall t', realign t = Ok t' tt -> (pointer_valid t' <-> 0 < tape_len t)) /\
  (forall a t', set_pointer a t = Ok t' tt -> (pointer_valid t' <-> 0 <= a < tape_len t)) /\
  (forall t', clear t = Ok t' tt ->
     pointer t' = pointer t /\ tape_len t' = as_usize (size t)).
Proof.
  split; [|split; [|split; [|split; [|split; [|split]]]]].
  - intros c t' H; destruct (add_frame _ _ _ H) as [P L];
      unfold pointer_valid in *; rewrite P, L; exact Hv.
  - intros c t' H; destruct (sub_frame _ _ _ H) as [P L];
      unfold pointer_valid in *; rewrite P, L; exact Hv.
  - intros c t' Hc; unfold left; destruct (tape_behaviour t).
    + circular_case.
    + destruct (Z.leb_spec c (pointer t)).
      * intros Heq; injection Heq as <-; unfold pointer_valid, tape_len, zlen in *; simpl; lia.
      * intros Heq; injection Heq as <-; unfold pointer_valid, tape_len in *; simpl.
        rewrite zlen_app, zlen_zeros by exact Hc; lia.
    + destruct (Z.ltb_spec (pointer t) c); [discriminate|].
      intros Heq; injection Heq as <-; unfold pointer_valid, tape_len, zlen in *; simpl; lia.
  - intros c t' Hc Hm; unfold right; destruct (tape_behaviour t).
    + circular_case.
    + unfold u128_add; destruct (Z.ltb_spec (pointer t + c) u128_modulus);
        [|discriminate].
      intros Heq; injection Heq as <-; unfold pointer_valid, tape_len in *; simpl.
      rewrite zlen_app, zlen_zeros by exact Hc; lia.
    + contradiction.
  - intros t' H; injection H as <-; unfold pointer_valid, tape_len; simpl; lia.
  - intros a t' H; injection H as <-; unfold pointer_valid, tape_len; simpl; tauto.
  - intros t' H; injection H as <-; unfold tape_len, zlen, zeros; simpl; split; [reflexivity|].
    rewrite repeat_length, Z2Nat.id; [reflexivity|].
    unfold as_usize; apply Z.mod_pos_bound; lia.
Qed.

(** C6 (counterexample). Under [Append], a 5-cell tape with pointer 4 grows
    to 8 cells with pointer 7 on [right 3]; [clear] then resets the cells to
    the configured 5 and keeps pointer 7, which is out of bounds. *)
Lemma clear_after_growth_breaks_pointer :
  exists t1 t2,
    right 3 (tape_at Append CCircular 5 4) = Ok t1 tt /\ pointer_valid t1 /\
    clear t1 = Ok t2 tt /\ ~ pointer_valid t2.
Proof.
  do 2 eexists; split; [vm_compute; reflexivity|].
  split; [unfold pointer_valid, tape_len, zlen; simpl; lia|].
  split; [reflexivity|].
  unfold pointer_valid, tape_len, zlen; simpl; lia.
Qed.

(** ** C5: an unmatched [[] *)

Lemma get_some_lt (s : string) (i : nat) (c : ascii) :
  String.get i s = Some c -> (i < String.length s)%nat.
Proof.
  revert i; induction s as [|d s IH]; intros i H; simpl in *; [discriminate|].
  destruct i; [lia|]; apply IH in H; lia.
Qed.

(** The whitespace loop either panics at the end of the text or stops on a
    character at or after the current index. *)
Lemma skip_whitespace_spec (fuel : nat) (p : Parser) :
  (String.length (src p) - index p <= fuel)%nat ->
  skip_whitespace fuel p = Panic \/
  exists p' c, skip_whitespace fuel p = Ok p' c /\ src p' = src p /\
    pflag p' = pflag p /\ (index p <= index p')%nat /\
    String.get (index p') (src p) = Some c.
Proof.
  revert p; induction fuel as [|f IH]; intros p Hf;
    simpl; unfold bind, current_char;
    destruct (String.get (index p) (src p)) eqn:G; auto;
    pose proof (get_some_lt _ _ _ G).
  - destruct (is_whitespace a); [lia|].
    right; exists p, a; auto.
  - destruct (is_whitespace a).
    + unfold advance.
      destruct (IH (set_index p (S (index p)))) as [H1|[p' [c [H1 [H2 [H3 [H4 H5]]]]]]];
        [simpl; lia|left; exact H1|].
      right; exists p', c; simpl in *; repeat split; auto; lia.
    + right; exists p, a; auto.
Qed.

Lemma read_alias_spec (fuel : nat) (name : string) (p : Parser) :
  (String.length (src p) - index p <= fuel)%nat ->
  read_alias fuel name p = Panic \/
  exists p' n, read_alias fuel name p = Ok p' n /\ src p' = src p /\
    pflag p' = pflag p /\ (index p <= index p')%nat.
Proof.
  revert p name; induction fuel as [|f IH]; intros p name Hf;
    simpl; unfold bind, current_char;
    destruct (String.get (index p) (src p)) eqn:G; auto;
    pose proof (get_some_lt _ _ _ G).
  - destruct (Ascii.eqb a "}"%char); [right; exists p, name; auto|lia].
  - destruct (Ascii.eqb a "}"%char); [right; exists p, name; auto|].
    unfold advance.
    destruct (IH (set_index p (S (index p))) (name ++ String a EmptyString)%string)
      as [H1|[p' [n [H1 [H2 [H3 H4]]]]]]; [simpl; lia|left; exact H1|].
    right; exists p', n; simpl in *; repeat split; auto; lia.
Qed.

Lemma skip_whitespace_at (fuel : nat) (p : Parser) (c : ascii) :
  String.get (index p) (src p) = Some c -> is_whitespace c = false ->
  skip_whitespace fuel p = Ok p c.
Proof.
  intros G W; destruct fuel; simpl; unfold bind, current_char; rewrite G, W; reflexivity.
Qed.

(** Bracket depth: [[] counts 1, [] ] counts -1, every other character 0.
    [pdepth s n] is the depth after the first [n] characters of [s]. *)
Definition bweight (c : ascii) : Z :=
  if Ascii.eqb c "["%char then 1 else if Ascii.eqb c "]"%char then -1 else 0.

Fixpoint pdepth (s : string) (n : nat) : Z :=
  match n, s with
  | S n', String c r => bweight c + pdepth r n'
  | _, _ => 0
  end.

(** The [[] at position [k] has no matching [] ]: after it the depth never
    falls back to the level before it, up to the end of the text. *)
Definition unmatched_open (s : string) (k : nat) : Prop :=
  String.get k s = Some "["%char /\
  forall j, (k < j <= String.length s)%nat -> pdepth s k < pdepth s j.

(** Aliases are off, or the text has no [{] (a [[] inside an alias name
    such as [{[}] is part of the name, not a loop). *)
Definition no_alias_text (fl : DisableFlags) (s : string) : Prop :=
  disable_aliases fl = true \/ forall j, String.get j s <> Some "{"%char.

(** The characters [i .. j-1] form a balanced bracket segment. *)
Definition seg_balanced (s : string) (i j : nat) : Prop :=
  pdepth s j = pdepth s i /\ forall k, (i <= k <= j)%nat -> pdepth s i <= pdepth s k.

(** Every [[] at or after position [i] has a matching [] ]. *)
Definition matched_from (s : string) (i : nat) : Prop :=
  forall k, (i <= k)%nat -> String.get k s = Some "["%char ->
    exists j, (k < j <= String.length s)%nat /\ pdepth s j <= pdepth s k.

Lemma pdepth_succ (s : string) (k : nat) (c : ascii) :
  String.get k s = Some c -> pdepth s (S k) = pdepth s k + bweight c.
Proof.
  revert k; induction s as [|d r IH]; intros k G; [destruct k; discriminate|].
  destruct k as [|k].
  - simpl in G; injection G as <-; destruct r; cbn [pdepth]; lia.
  - simpl in G; cbn [pdepth]; rewrite (IH k G); lia.
Qed.

Lemma whitespace_weight (c : ascii) : is_whitespace c = true -> bweight c = 0.
Proof.
  unfold bweight; intros W.
  destruct (Ascii.eqb_spec c "["%char) as [E|_]; [subst; discriminate W|].
  destruct (Ascii.eqb_spec c "]"%char) as [E|_]; [subst; discriminate W|reflexivity].
Qed.

Lemma seg_refl (s : string) (i : nat) : seg_balanced s i i.
Proof. split; [reflexivity|intros k Hk; replace k with i by lia; lia]. Qed.

Lemma seg_trans (s : string) (i j k : nat) :
  (i <= j)%nat -> seg_balanced s i j -> seg_balanced s j k -> seg_balanced s i k.
Proof.
  intros Hij [E1 M1] [E2 M2]; split; [lia|].
  intros m Hm; destruct (Nat.le_gt_cases m j); [apply M1; lia|].
  specialize (M2 m ltac:(lia)); lia.
Qed.

Lemma seg_unit (s : string) (i i0 : nat) (c : ascii) :
  (i <= i0)%nat -> String.get i0 s = Some c -> bweight c = 0 ->
  (forall k, (i <= k <= i0)%nat -> pdepth s k = pdepth s i) ->
  seg_balanced s i (S i0).
Proof.
  intros Hi G W F.
  assert (E : pdepth s (S i0) = pdepth s i)
    by (rewrite (pdepth_succ _ _ _ G), W, (F i0); lia).
  split; [exact E|].
  intros k Hk; destruct (Nat.eq_dec k (S i0)) as [->|Hne]; [lia|].
  rewrite (F k); lia.
Qed.

Lemma seg_loop (s : string) (i i0 i1 : nat) :
  (i <= i0)%nat -> String.get i0 s = Some "["%char ->
  (forall k, (i <= k <= i0)%nat -> pdepth s k = pdepth s i) ->
  seg_balanced s (S i0) i1 -> String.get i1 s = Some "]"%char ->
  seg_balanced s i (S i1).
Proof.
  intros Hi G0 F [E M] G1.
  pose proof (pdepth_succ _ _ _ G0) as D0; pose proof (pdepth_succ _ _ _ G1) as D1.
  cbn in D0, D1; rewrite (F i0) in D0 by lia.
  split; [lia|].
  intros k Hk.
  destruct (Nat.le_gt_cases k i0); [rewrite (F k); lia|].
  destruct (Nat.eq_dec k (S i1)) as [->|Hne]; [lia|].
  specialize (M k ltac:(lia)); lia.
Qed.

(** The whitespace loop panics at the end of the text, or stops on a
    non-whitespace character, having skipped only characters of depth 0. *)
Lemma skip_whitespace_flat (fuel : nat) (p : Parser) :
  (String.length (src p) - index p <= fuel)%nat ->
  skip_whitespace fuel p = Panic \/
  exists p' c, skip_whitespace fuel p = Ok p' c /\ src p' = src p /\
    pflag p' = pflag p /\ (index p <= index p')%nat /\
    String.get (index p') (src p) = Some c /\ is_whitespace c = false /\
    forall k, (index p <= k <= index p')%nat -> pdepth (src p) k = pdepth (src p) (index p).
Proof.
  revert p; induction fuel as [|f IH]; intros p Hf;
    simpl; unfold bind, current_char;
    destruct (String.get (index p) (src p)) eqn:G; auto;
    pose proof (get_some_lt _ _ _ G).
  - destruct (is_whitespace a) eqn:W; [lia|].
    right; exists p, a; repeat split; auto.
    intros k Hk; replace k with (index p) by lia; reflexivity.
  - destruct (is_whitespace a) eqn:W.
    + unfold advance.
      destruct (IH (set_index p (S (index p))))
        as [H1|[p' [c [H1 [H2 [H3 [H4 [H5 [H6 H7]]]]]]]]];
        [simpl; lia|left; exact H1|].
      simpl in H2, H3, H4, H5, H7.
      right; exists p', c; repeat split; auto; [lia|].
      intros k Hk; destruct (Nat.eq_dec k (index p)) as [->|Hne]; [reflexivity|].
      rewrite (H7 k) by lia.
      rewrite (pdepth_succ _ _ _ G), (whitespace_weight _ W); lia.
    + right; exists p, a; repeat split; auto.
      intros k Hk; replace k with (index p) by lia; reflexivity.
Qed.

(** One-character instruction: the segment it consumes is balanced. *)
Ltac unit_seg Hi1 Hg1 Hflat :=
  right; eexists; eexists; split; [reflexivity|];
  cbn [src pflag index set_index]; split; [congruence|]; split; [congruence|];
  split; [lia|]; exact (seg_unit _ _ _ _ Hi1 Hg1 eq_refl Hflat).

(** With enough fuel, [parse_one] panics or consumes a nonempty balanced
    segment, and [parse_loop] panics or stops on a [] ] after a balanced
    segment; neither ever returns an error value or runs out of fuel. *)
Lemma parse_balanced_aux (f : nat) :
  (forall p, no_alias_text (pflag p) (src p) ->
     (2 * (String.length (src p) - index p) + 1 <= f)%nat ->
     parse_one f p = Panic \/
     exists p' x, parse_one f p = Ok p' x /\ src p' = src p /\ pflag p' = pflag p /\
       (index p < index p' <= String.length (src p))%nat /\
       seg_balanced (src p) (index p) (index p')) /\
  (forall p acc, no_alias_text (pflag p) (src p) ->
     (2 * (String.length (src p) - index p) + 2 <= f)%nat ->
     parse_loop f acc p = Panic \/
     exists p' r, parse_loop f acc p = Ok p' r /\ src p' = src p /\ pflag p' = pflag p /\
       (index p <= index p')%nat /\ String.get (index p') (src p) = Some "]"%char /\
       seg_balanced (src p) (index p) (index p')).
Proof.
  induction f as [|f [IH1 IH2]]; [split; intros; lia|].
  split.
  - intros p Ha Hf; simpl.
    destruct (skip_whitespace_flat (String.length (src p)) p) as
        [H|[p1 [c [H1 [Hs1 [Hf1 [Hi1 [Hg1 [Hw1 Hflat]]]]]]]]];
      [lia|left; unfold bind; rewrite H; reflexivity|].
    pose proof (get_some_lt _ _ _ Hg1) as Hlt.
    unfold bind; rewrite H1; unfold get, advance, ret.
    destruct (Ascii.eqb c "+"%char) eqn:E;
      [apply Ascii.eqb_eq in E; subst c; cbn beta iota; unit_seg Hi1 Hg1 Hflat|clear E].
    destruct (Ascii.eqb c "-"%char) eqn:E;
      [apply Ascii.eqb_eq in E; subst c; cbn beta iota; unit_seg Hi1 Hg1 Hflat|clear E].
    destruct (Ascii.eqb c ">"%char) eqn:E;
      [apply Ascii.eqb_eq in E; subst c; cbn beta iota; unit_seg Hi1 Hg1 Hflat|clear E].
    destruct (Ascii.eqb c "<"%char) eqn:E;
      [apply Ascii.eqb_eq in E; subst c; cbn beta iota; unit_seg Hi1 Hg1 Hflat|clear E].
    destruct (Ascii.eqb c "["%char) eqn:E.
    { apply Ascii.eqb_eq in E; subst c; cbn beta iota.
      destruct (IH2 (set_index p1 (S (index p1))) []) as
          [H|[p2 [r [H2 [Hs2 [Hf2 [Hi2 [Hg2 Hseg]]]]]]]];
        [cbn [src pflag set_index]; rewrite Hs1, Hf1; exact Ha
        |cbn [src index set_index]; rewrite Hs1; lia
        |left; rewrite H; reflexivity|].
      cbn [src pflag index set_index] in Hs2, Hf2, Hi2, Hg2, Hseg.
      rewrite Hs1 in Hs2, Hg2, Hseg.
      pose proof (get_some_lt _ _ _ Hg2) as Hlt2.
      rewrite H2; right; eexists; eexists; split; [reflexivity|].
      cbn [src pflag index set_index]; split; [congruence|]; split; [congruence|].
      split; [lia|].
      exact (seg_loop _ _ _ _ Hi1 Hg1 Hflat Hseg Hg2). }
    clear E.
    destruct (Ascii.eqb c "."%char) eqn:E;
      [apply Ascii.eqb_eq in E; subst c; cbn beta iota; unit_seg Hi1 Hg1 Hflat|clear E].
    destruct (Ascii.eqb c ","%char) eqn:E;
      [apply Ascii.eqb_eq in E; subst c; cbn beta iota; unit_seg Hi1 Hg1 Hflat|clear E].
    cbn beta iota.
    destruct (Ascii.eqb c "{"%char && negb (disable_aliases (pflag p1))) eqn:E;
      [|left; reflexivity].
    exfalso; apply andb_true_iff in E as [E1 E2].
    apply Ascii.eqb_eq in E1; subst c.
    destruct Ha as [Ha|Ha].
    + rewrite Hf1, Ha in E2; discriminate E2.
    + exact (Ha _ Hg1).
  - intros p acc Ha Hf; cbn [parse_loop]; unfold bind, current_char; cbv beta.
    destruct (String.get (index p) (src p)) eqn:G; [|left; reflexivity].
    pose proof (get_some_lt _ _ _ G) as Hlt.
    destruct (Ascii.eqb a "]"%char) eqn:E.
    { apply Ascii.eqb_eq in E; subst a; right; exists p, (rev acc).
      split; [reflexivity|]; repeat split; auto; apply seg_refl. }
    unfold bind.
    destruct (IH1 p) as [H|[p1 [x [H1 [Hs1 [Hf1 [Hi1 Hseg1]]]]]]];
      [exact Ha|lia|rewrite H; left; reflexivity|].
    rewrite H1.
    destruct (IH2 p1 (x :: acc)) as [H|[p2 [r [H2 [Hs2 [Hf2 [Hi2 [Hg2 Hseg2]]]]]]]];
      [rewrite Hs1, Hf1; exact Ha|rewrite Hs1; lia|left; exact H|].
    rewrite Hs1 in Hs2, Hg2, Hseg2.
    right; exists p2, r; split; [exact H2|]; split; [congruence|]; split; [congruence|].
    split; [lia|]; split; [exact Hg2|].
    exact (seg_trans _ _ _ _ (Nat.lt_le_incl _ _ (proj1 Hi1)) Hseg1 Hseg2).
Qed.

(** The top-level loop panics, or succeeds only when every [[] from the
    current index on is matched. *)
Lemma parse_top_matched (f : nat) :
  forall acc p, no_alias_text (pflag p) (src p) ->
    (String.length (src p) - index p < f)%nat ->
    parse_top f acc p = Panic \/
    exists p' r, parse_top f acc p = Ok p' r /\ matched_from (src p) (index p).
Proof.
  induction f as [|f IH]; intros acc p Ha Hf; [lia|].
  cbn [parse_top].
  destruct (Nat.ltb_spec (index p) (String.length (src p))) as [Hl|Hl].
  - unfold bind.
    destruct (proj1 (parse_balanced_aux (2 * String.length (src p) + 1)) p Ha)
      as [H|[p1 [x [H1 [Hs1 [Hf1 [Hi1 Hseg]]]]]]]; [lia|rewrite H; left; reflexivity|].
    rewrite H1.
    destruct (IH (x :: acc) p1) as [H|[p2 [r [H2 Hm]]]];
      [rewrite Hs1, Hf1; exact Ha|rewrite Hs1; lia|left; exact H|].
    right; exists p2, r; split; [exact H2|].
    rewrite Hs1 in Hm.
    intros k Hk G.
    destruct (Nat.le_gt_cases (index p1) k); [apply Hm; assumption|].
    exists (index p1); split; [lia|].
    destruct Hseg as [E M]; rewrite E; apply M; lia.
  - right; eexists; eexists; split; [reflexivity|].
    intros k Hk G; apply get_some_lt in G; lia.
Qed.


(** With aliases enabled a [[] inside an alias name is part of the name:
    [{[}] parses without a panic. *)
Lemma alias_name_holds_bracket :
  parse (Parser_new "{[}" (flags_optimise true)) =
  Ok (mkParser "{[}" (flags_optimise true) 3 ["["%string])
     [((0, 3)%nat, IGoto "[")].
Proof. vm_compute; reflexivity. Qed.

(** ** C3: optimising an optimised tree *)

(** Spans erased, to compare trees by instruction kinds and counts. *)
Fixpoint erase_ins (i : Instruction) : Instruction :=
  match i with
  | ILoop body => ILoop (map (fun x => ((0, 0)%nat, erase_ins (snd x))) body)
  | _ => i
  end.

Definition erase (l : list (Span * Instruction)) : list (Span * Instruction) :=
  map (fun x => ((0, 0)%nat, erase_ins (snd x))) l.

(** Every [Add]/[Subtract]/[Left]/[Right] count set to 1, through [Loop]
    bodies. *)
Fixpoint reset_ins (i : Instruction) : Instruction :=
  match i with
  | ILoop body => ILoop (map (fun x => (fst x, reset_ins (snd x))) body)
  | _ => set_count i 1
  end.

Definition reset (l : list (Span * Instruction)) : list (Span * Instruction) :=
  map (fun x => (fst x, reset_ins (snd x))) l.

(** The element pushed by one iteration of the outer loop at [j], and the
    distance [index] advances by. *)
Definition opt_emit (opt : list (Span * Instruction) -> list (Span * Instruction))
    (l : list (Span * Instruction)) (j : nat) : Span * Instruction :=
  let '(start_span, start_instruction) := nth j l dummy_entry in
  match start_instruction with
  | ILoop inner => ((span_offset start_span, List.length inner), ILoop (opt inner))
  | IGoto key => ((span_offset start_span, (String.length key + 2)%nat), IGoto key)
  | _ =>
      let count := stretch (List.length l) l start_instruction j 1 in
      ((span_offset start_span, count), set_count start_instruction count)
  end.

Definition opt_adv (l : list (Span * Instruction)) (j : nat) : nat :=
  match snd (nth j l dummy_entry) with
  | ILoop _ | IGoto _ => 1
  | i => stretch (List.length l) l i j 1
  end.

Lemma optimise_from_S opt n l j :
  optimise_from opt (S n) l j =
  if (j <? List.length l)%nat
  then opt_emit opt l j :: optimise_from opt n l (j + opt_adv l j)
  else [].
Proof.
  simpl; destruct (j <? List.length l)%nat; [|reflexivity].
  unfold opt_emit, opt_adv; destruct (nth j l dummy_entry) as [sp ins].
  destruct ins; simpl; rewrite ?Nat.add_1_r; reflexivity.
Qed.

Lemma optimise_from_cons opt n l j y rest :
  optimise_from opt n l j = y :: rest ->
  exists n', n = S n' /\ (j < List.length l)%nat /\ y = opt_emit opt l j /\
             rest = optimise_from opt n' l (j + opt_adv l j).
Proof.
  destruct n as [|n]; [discriminate|]; rewrite optimise_from_S.
  destruct (Nat.ltb_spec j (List.length l)); [|discriminate].
  intros Heq; injection Heq as <- <-; exists n; auto.
Qed.

Lemma stretch_spec (fuel : nat) l start idx count :
  (List.length l - 1 - (idx + count) <= fuel)%nat ->
  let c := stretch fuel l start idx count in
  (count <= c)%nat /\
  ((idx + c < List.length l - 1)%nat ->
     is_consecutive_okay start (snd (nth (idx + c) l dummy_entry)) = false) /\
  (c = count \/ (idx + c <= List.length l - 1)%nat).
Proof.
  revert count; induction fuel as [|f IH]; intros count Hf; simpl.
  - repeat split; auto; lia.
  - destruct (Nat.ltb_spec (idx + count) (List.length l - 1)) as [Hlt|Hge].
    + destruct (nth (idx + count) l dummy_entry) as [sp e] eqn:E.
      destruct (is_consecutive_okay start e) eqn:Ok.
      * destruct (IH (S count)) as [H1 [H2 H3]]; [lia|].
        repeat split; [lia|exact H2|lia].
      * repeat split; auto; intros _; rewrite E; exact Ok.
    + repeat split; auto; lia.
Qed.

Lemma opt_adv_pos l j : (1 <= opt_adv l j)%nat.
Proof.
  unfold opt_adv; destruct (snd (nth j l dummy_entry)); auto;
    apply (stretch_spec (List.length l) l _ j 1); lia.
Qed.

Definition cons_disc (n : nat) : bool :=
  match n with 2 | 5 | 6 | 7 => false | _ => true end%nat.

Lemma consecutive_disc (i : Instruction) :
  is_instruction_consecutive i = cons_disc (discriminant i).
Proof. destruct i; reflexivity. Qed.

Lemma okay_disc a a' b b' :
  discriminant a = discriminant a' -> discriminant b = discriminant b' ->
  is_consecutive_okay a b = is_consecutive_okay a' b'.
Proof.
  intros Ha Hb; unfold is_consecutive_okay; rewrite !consecutive_disc, Ha, Hb; reflexivity.
Qed.

Lemma opt_emit_disc opt l j :
  discriminant (snd (opt_emit opt l j)) = discriminant (snd (nth j l dummy_entry)).
Proof.
  unfold opt_emit; destruct (nth j l dummy_entry) as [sp ins]; destruct ins; reflexivity.
Qed.

(** Adjacent elements never merge, except possibly the last two. *)
Fixpoint sep (l : list (Span * Instruction)) : Prop :=
  match l with
  | [] => True
  | x :: rest =>
      match rest with
      | y :: _ :: _ => is_consecutive_okay (snd x) (snd y) = false /\ sep rest
      | _ => True
      end
  end.

Lemma optimise_from_sep opt n l j : sep (optimise_from opt n l j).
Proof.
  revert j; induction n as [|n IH]; intros j; [exact I|].
  rewrite optimise_from_S.
  destruct (Nat.ltb_spec j (List.length l)) as [Hj|]; [|exact I].
  specialize (IH (j + opt_adv l j)%nat).
  destruct (optimise_from opt n l (j + opt_adv l j)) as [|y1 [|y2 rest]] eqn:T;
    simpl; auto.
  split; [|exact IH].
  destruct (optimise_from_cons _ _ _ _ _ _ T) as [n' [-> [Hj1 [-> T']]]].
  symmetry in T'.
  destruct (optimise_from_cons _ _ _ _ _ _ T') as [n'' [_ [Hj2 _]]].
  pose proof (opt_adv_pos l (j + opt_adv l j)).
  rewrite (okay_disc _ (snd (nth j l dummy_entry)) _
             (snd (nth (j + opt_adv l j) l dummy_entry))) by apply opt_emit_disc.
  unfold opt_adv in *.
  destruct (snd (nth j l dummy_entry)) eqn:E; try reflexivity;
    apply (stretch_spec (List.length l) l _ j 1); lia.
Qed.

Lemma sep_nth l :
  sep l -> forall k, (k + 2 < List.length l)%nat ->
  is_consecutive_okay (snd (nth k l dummy_entry)) (snd (nth (S k) l dummy_entry)) = false.
Proof.
  induction l as [|x l IH]; intros Hs k Hk; simpl in Hk; [lia|].
  destruct l as [|y [|z l']]; simpl in Hk; [lia|lia|].
  destruct Hs as [H1 H2].
  destruct k as [|k]; [exact H1|].
  apply (IH H2 k); simpl; lia.
Qed.

(** The outer loop on a list whose adjacent elements never merge, except
    possibly the last two: every window has length one. *)
Definition step1 (opt : list (Span * Instruction) -> list (Span * Instruction))
    (x : Span * Instruction) : Span * Instruction :=
  let '(sp, i) := x in
  match i with
  | ILoop inner => ((span_offset sp, List.length inner), ILoop (opt inner))
  | IGoto key => ((span_offset sp, (String.length key + 2)%nat), IGoto key)
  | _ => ((span_offset sp, 1%nat), set_count i 1)
  end.

Lemma stretch_one l j :
  sep l -> (j < List.length l)%nat ->
  stretch (List.length l) l (snd (nth j l dummy_entry)) j 1 = 1%nat.
Proof.
  intros Hs Hj.
  assert (Hm : exists m, List.length l = S m) by (exists (pred (List.length l)); lia).
  destruct Hm as [m Hm]; rewrite Hm at 1; simpl.
  destruct (Nat.ltb_spec (j + 1) (List.length l - 1)); [|reflexivity].
  replace (j + 1)%nat with (S j) by lia.
  destruct (nth (S j) l dummy_entry) as [sp e] eqn:E.
  pose proof (sep_nth l Hs j ltac:(lia)) as H0; rewrite E in H0; simpl in H0.
  rewrite H0; reflexivity.
Qed.

Lemma skipn_nth_cons {A} (l : list A) (d : A) (j : nat) :
  (j < List.length l)%nat -> skipn j l = nth j l d :: skipn (S j) l.
Proof.
  revert j; induction l as [|x l IH]; intros j Hj; simpl in *; [lia|].
  destruct j as [|j]; [reflexivity|].
  simpl; apply IH; lia.
Qed.

Lemma optimise_from_sep_map opt l :
  sep l -> forall n j, (List.length l - j <= n)%nat ->
  optimise_from opt n l j = map (step1 opt) (skipn j l).
Proof.
  intros Hs n; induction n as [|n IH]; intros j Hn.
  - rewrite skipn_all2 by lia; reflexivity.
  - rewrite optimise_from_S.
    destruct (Nat.ltb_spec j (List.length l)) as [Hj|Hj];
      [|rewrite skipn_all2 by lia; reflexivity].
    rewrite (skipn_nth_cons l dummy_entry j Hj); simpl map.
    assert (Ha : opt_adv l j = 1%nat).
    { unfold opt_adv; destruct (snd (nth j l dummy_entry)) eqn:E; auto;
        rewrite <- E; apply stretch_one; auto. }
    rewrite Ha, IH by lia; rewrite Nat.add_1_r; f_equal.
    unfold opt_emit, step1.
    pose proof (stretch_one l j Hs Hj) as H1.
    destruct (nth j l dummy_entry) as [sp ins]; simpl in H1.
    destruct ins; try reflexivity; rewrite H1; reflexivity.
Qed.

(** Every [Loop] the outer loop pushes has as body [opt] of the body of a
    [Loop] of the input. *)
Lemma optimise_from_loops opt n l j sp b :
  In (sp, ILoop b) (optimise_from opt n l j) ->
  exists sp0 b0, In (sp0, ILoop b0) l /\ b = opt b0.
Proof.
  revert j; induction n as [|n IH]; intros j Hin; [destruct Hin|].
  rewrite optimise_from_S in Hin.
  destruct (Nat.ltb_spec j (List.length l)) as [Hj|]; [|destruct Hin].
  destruct Hin as [E|Hin]; [|exact (IH _ Hin)].
  pose proof (nth_In l dummy_entry Hj) as Hn.
  unfold opt_emit in E; destruct (nth j l dummy_entry) as [sp1 ins].
  destruct ins; try discriminate;
    try (destruct count; discriminate).
  - injection E as _ <-; eauto.
Qed.

Lemma depth_In l x : In x l -> (ins_depth (snd x) <= depth l)%nat.
Proof.
  induction l as [|y l IH]; intros H; [destruct H|].
  unfold depth; simpl; destruct H as [<-|H]; [lia|].
  specialize (IH H); unfold depth in IH; lia.
Qed.

Lemma optimise_depth_S d l :
  optimise_depth (S d) l = optimise_from (optimise_depth d) (List.length l) l 0.
Proof. reflexivity. Qed.

Lemma reoptimise_depth (d : nat) :
  forall u d2, (depth u < d)%nat -> (depth (optimise_depth d u) < d2)%nat ->
  erase (optimise_depth d2 (optimise_depth d u)) = erase (reset (optimise_depth d u)).
Proof.
  induction d as [|d IHd]; intros u d2 Hu Hv; [lia|].
  destruct d2 as [|d2]; [lia|].
  rewrite !optimise_depth_S in *.
  set (v := optimise_from (optimise_depth d) (List.length u) u 0) in *.
  rewrite (optimise_from_sep_map _ v (optimise_from_sep _ _ _ _)) by lia.
  simpl skipn; unfold erase, reset; rewrite !map_map.
  apply map_ext_in; intros [sp i] Hin; simpl.
  destruct i; try reflexivity.
  destruct (optimise_from_loops _ _ _ _ _ _ Hin) as [sp0 [b0 [Hin0 ->]]].
  pose proof (depth_In _ _ Hin0) as D0; pose proof (depth_In _ _ Hin) as D1.
  simpl in D0, D1.
  cbn [snd erase_ins reset_ins].
  assert (IH : erase (optimise_depth d2 (optimise_depth d b0))
               = erase (reset (optimise_depth d b0)))
    by (apply IHd; unfold depth in *; lia).
  unfold erase, reset in IH; rewrite IH; reflexivity.
Qed.

(** C3 (amended). Optimising an optimised tree keeps every instruction kind,
    every [Goto] name and the whole [Loop] structure, but sets every
    [Add]/[Subtract]/[Left]/[Right] count to 1 (spans aside): [set_count]
    stores the number of instructions merged, not the sum of their counts.
    So the optimiser returns an optimised tree unchanged exactly when all its
    counts are already 1. *)
Theorem reoptimise_resets_counts (u : list (Span * Instruction)) :
  erase (optimise_consecutive (optimise_consecutive u))
  = erase (reset (optimise_consecutive u)).
Proof.
  unfold optimise_consecutive at 1.
  apply reoptimise_depth; unfold optimise_consecutive; lia.
Qed.

(** C3 (counterexample). [+++] optimises to [Add(2), Add(1)]; optimising
    again gives [Add(1), Add(1)]. *)
Lemma reoptimise_not_idempotent :
  exists t,
    instructions_of (parse (Parser_new "+++" (flags_optimise true))) = Some t /\
    erase t = [((0, 0)%nat, IAdd 2); ((0, 0)%nat, IAdd 1)] /\
    erase (optimise_consecutive t) = [((0, 0)%nat, IAdd 1); ((0, 0)%nat, IAdd 1)].
Proof. eexists; split; [vm_compute; reflexivity|]; split; vm_compute; reflexivity. Qed.


(** ** Witnesses *)

Lemma add_200_then_100_witness :
  get_value (tape_at TCircular CPanic 5 0) = Ok (tape_at TCircular CPanic 5 0) 0 /\
  exists t1, add 200 (tape_at TCircular CPanic 5 0) = Ok t1 tt /\
    get_value t1 = Ok t1 200 /\
    add 100 t1 = Err t1 (mkBFError RuntimeError
      ("Cell " ++ show_Z 0 ++ " (value 200) would go above 0 if 100 were added")%string).
Proof.
  split; [vm_compute; reflexivity|].
  exact (add_200_then_100 (tape_at TCircular CPanic 5 0) ltac:(vm_compute; reflexivity)).
Defined.


Definition alias_example_state : PState :=
  mkPState (set_cells (Tape_new (mkTapeFlags TCircular CCircular 10))
              [0; 0; 7; 0; 0; 0; 0; 0; 0; 0])
           [] (mkDisableFlags false false false) [] [].

Lemma assign_alias_address_highest_free_witness :
  get_by_left (aliases alias_example_state) "A" = None /\
  1 <= tape_len (tape alias_example_state) <= 2 ^ 64 /\
  exists a st',
    assign_alias_address "A" alias_example_state = Ok st' a /\
    0 <= a < tape_len (tape alias_example_state) /\ alias_eligible alias_example_state a /\
    (forall b, a < b < tape_len (tape alias_example_state) ->
       ~ alias_eligible alias_example_state b) /\
    get_by_left (aliases st') "A" = Some a /\
    get_by_right (aliases st') a = Some "A"%string /\
    tape st' = tape alias_example_state.
Proof.
  split; [reflexivity|]; split; [vm_compute; split; discriminate|].
  apply (assign_alias_address_highest_free alias_example_state "A").
  - reflexivity.
  - vm_compute; split; discriminate.
  - exists 9; split;
      [replace (tape_len (tape alias_example_state)) with 10 by reflexivity; lia|].
    unfold alias_eligible; split; vm_compute; reflexivity.
Defined.

Lemma tape_ops_keep_pointer_valid_witness :
  pointer_valid (tape_at TCircular CCircular 5 2) /\
  (forall a t', set_pointer a (tape_at TCircular CCircular 5 2) = Ok t' tt ->
     (pointer_valid t' <-> 0 <= a < tape_len (tape_at TCircular CCircular 5 2))).
Proof.
  assert (Hv : pointer_valid (tape_at TCircular CCircular 5 2))
    by (unfold pointer_valid, tape_len, zlen; simpl; lia).
  split; [exact Hv|].
  destruct (tape_ops_keep_pointer_valid _ Hv) as (_ & _ & _ & _ & _ & H & _).
  exact H.
Defined.


(** * Further properties of the code *)

(** ** List access by index *)

Lemma zupdate_lookup_same {A} (l l' : list A) (i : Z) (w : A) :
  zupdate l i w = Some l' -> zlookup l' i = Some w.
Proof.
  revert i l'; induction l as [|x l IH]; intros i l' H; simpl in *; [discriminate|].
  destruct (Z.eqb_spec i 0).
  - injection H as <-; simpl; subst; reflexivity.
  - destruct (zupdate l (i - 1) w) eqn:E; [|discriminate].
    injection H as <-; simpl; destruct (Z.eqb_spec i 0); [contradiction|].
    exact (IH _ _ E).
Qed.

Lemma zupdate_lookup_other {A} (l l' : list A) (i j : Z) (w : A) :
  zupdate l i w = Some l' -> j <> i -> zlookup l' j = zlookup l j.
Proof.
  revert i j l'; induction l as [|x l IH]; intros i j l' H Hne; simpl in *; [discriminate|].
  destruct (Z.eqb_spec i 0).
  - injection H as <-; simpl; subst.
    destruct (Z.eqb_spec j 0); [contradiction|reflexivity].
  - destruct (zupdate l (i - 1) w) eqn:E; [|discriminate].
    injection H as <-; simpl.
    destruct (Z.eqb_spec j 0); [reflexivity|].
    apply (IH _ _ _ E); lia.
Qed.

Lemma zupdate_none {A} (l : list A) (i : Z) (w : A) :
  zupdate l i w = None -> zlookup l i = None.
Proof.
  revert i; induction l as [|x l IH]; intros i H; simpl in *; [reflexivity|].
  destruct (Z.eqb i 0); [discriminate|].
  destruct (zupdate l (i - 1) w) eqn:E; [discriminate|]; exact (IH _ E).
Qed.

Lemma zlookup_none_range {A} (l : list A) (i : Z) :
  0 <= i -> zlookup l i = None -> zlen l <= i.
Proof.
  intros Hi H; destruct (Z_lt_le_dec i (zlen l)) as [Hlt|]; [|assumption].
  destruct (zlookup_in_range l i) as [v Hv]; [lia|congruence].
Qed.

Lemma zupdate_restore {A} (l l' : list A) (i : Z) (v w : A) :
  zlookup l i = Some v -> zupdate l i w = Some l' -> zupdate l' i v = Some l.
Proof.
  revert i l'; induction l as [|x l IH]; intros i l' Hv H; simpl in *; [discriminate|].
  destruct (Z.eqb_spec i 0).
  - injection Hv as ->; injection H as <-; simpl; subst; reflexivity.
  - destruct (zupdate l (i - 1) w) eqn:E; [|discriminate].
    injection H as <-; simpl; destruct (Z.eqb_spec i 0); [contradiction|].
    rewrite (IH _ _ Hv E); reflexivity.
Qed.

Lemma set_cells_same (t : Tape) : set_cells t (cells t) = t.
Proof. destruct t; reflexivity. Qed.

Lemma set_cells_twice (t : Tape) (c1 c2 : list Z) :
  set_cells (set_cells t c1) c2 = set_cells t c2.
Proof. reflexivity. Qed.

Lemma zlookup_app_l {A} (l1 l2 : list A) (i : Z) :
  0 <= i < zlen l1 -> zlookup (l1 ++ l2) i = zlookup l1 i.
Proof.
  unfold zlen; revert i; induction l1 as [|x l1 IH]; intros i H;
    cbn [app zlookup List.length] in *; [lia|].
  rewrite Nat2Z.inj_succ in H.
  destruct (Z.eqb_spec i 0); [reflexivity|apply IH; lia].
Qed.

Lemma zlookup_app_r {A} (l1 l2 : list A) (i : Z) :
  0 <= i -> zlookup (l1 ++ l2) (i + zlen l1) = zlookup l2 i.
Proof.
  unfold zlen; revert i; induction l1 as [|x l1 IH]; intros i H;
    cbn [app zlookup List.length].
  - f_equal; lia.
  - rewrite Nat2Z.inj_succ.
    destruct (Z.eqb_spec (i + Z.succ (Z.of_nat (List.length l1))) 0); [lia|].
    replace (i + Z.succ (Z.of_nat (List.length l1)) - 1)
      with (i + Z.of_nat (List.length l1)) by lia.
    apply IH; exact H.
Qed.

Lemma zlookup_repeat {A} (x : A) (n : nat) (i : Z) :
  0 <= i < Z.of_nat n -> zlookup (repeat x n) i = Some x.
Proof.
  revert i; induction n as [|n IH]; intros i H; simpl; [lia|].
  destruct (Z.eqb_spec i 0); [reflexivity|apply IH; lia].
Qed.

(** Writing a cell and reading it back, and writing back the old value. *)
Lemma set_value_get (t t1 : Tape) (v w : Z) :
  get_value t = Ok t v -> set_value w t = Ok t1 tt ->
  get_value t1 = Ok t1 w /\ set_value v t1 = Ok t tt /\
  pointer t1 = pointer t /\ cell_behaviour t1 = cell_behaviour t.
Proof.
  unfold get_value, set_value.
  destruct (zlookup (cells t) (as_usize (pointer t))) eqn:E; [|discriminate].
  intros Hv; injection Hv as <-.
  destruct (zupdate (cells t) (as_usize (pointer t)) w) eqn:U; [|discriminate].
  intros H; injection H as <-; simpl.
  rewrite (zupdate_lookup_same _ _ _ _ U), (zupdate_restore _ _ _ _ _ E U).
  rewrite set_cells_twice, set_cells_same; auto.
Qed.

(** ** The tape *)

(** [set_value_at_index(a, v)] then [get_value_at_index(a)] gives back [v].
    Both index the cells at [a as usize], that is [a mod 2^64]: every cell
    at another [usize] index, the pointer and the tape length are
    unchanged, and when [a as usize] is at or past the end of the tape the
    write panics (an [a] of [2^64] or more wraps and may land inside). *)
Theorem set_value_at_index_roundtrip (t : Tape) (a v : Z) :
  (forall t', set_value_at_index a v t = Ok t' tt ->
     get_value_at_index a t' = Ok t' v /\
     (forall b, as_usize b <> as_usize a ->
        zlookup (cells t') (as_usize b) = zlookup (cells t) (as_usize b)) /\
     pointer t' = pointer t /\ tape_len t' = tape_len t) /\
  (tape_len t <= as_usize a -> set_value_at_index a v t = Panic).
Proof.
  split.
  - intros t'; unfold set_value_at_index.
    destruct (zupdate (cells t) (as_usize a) v) eqn:U; [|discriminate].
    intros H; injection H as <-.
    unfold get_value_at_index, tape_len, zlen; simpl.
    rewrite (zupdate_lookup_same _ _ _ _ U), (zupdate_length _ _ _ _ U).
    repeat split; auto.
    intros b Hb; exact (zupdate_lookup_other _ _ _ _ _ U Hb).
  - intros H; unfold set_value_at_index.
    destruct (zupdate (cells t) (as_usize a) v) eqn:U; [|reflexivity].
    pose proof (zlookup_some_range _ _ _ (zupdate_lookup_same _ _ _ _ U)) as R.
    unfold zlen in R; rewrite (zupdate_length _ _ _ _ U) in R;
    unfold tape_len, zlen in H; lia.
Qed.

(** Under the [Circular] and [Panic] cell policies, [add(c)] and [sub(c)]
    undo each other on a byte cell: a successful [add(c)] followed by
    [sub(c)] (or [sub(c)] followed by [add(c)]) gives back the very same
    tape; under [Circular] both always succeed. *)
Theorem add_sub_inverse (t : Tape) (c v : Z)
    (Hv : get_value t = Ok t v) (Hb : 0 <= v <= 255) (Hc : 0 <= c <= 255)
    (Hm : cell_behaviour t <> Nothing) :
  (forall t1, add c t = Ok t1 tt -> sub c t1 = Ok t tt) /\
  (forall t1, sub c t = Ok t1 tt -> add c t1 = Ok t tt) /\
  (cell_behaviour t = CCircular ->
     (exists t1, add c t = Ok t1 tt) /\ (exists t1, sub c t = Ok t1 tt)).
Proof.
  split; [|split].
  - intros t1; unfold add, bind, throw; rewrite Hv.
    destruct (cell_behaviour t) eqn:M; [| contradiction |].
    + intros E; destruct (set_value_get _ _ _ _ Hv E) as [G1 [S1 [P1 C1]]].
      unfold sub, bind; rewrite C1, M, G1.
      rewrite Zminus_mod_idemp_l, Z.add_simpl_r, Z.mod_small by lia; exact S1.
    + destruct (Z.ltb_spec u8_max (v + c)); [discriminate|].
      intros E; destruct (set_value_get _ _ _ _ Hv E) as [G1 [S1 [P1 C1]]].
      unfold sub, bind; rewrite C1, M, G1.
      destruct (Z.ltb_spec (v + c) c); [lia|].
      rewrite Z.add_simpl_r; exact S1.
  - intros t1; unfold sub, bind, throw; rewrite Hv.
    destruct (cell_behaviour t) eqn:M; [| contradiction |].
    + intros E; destruct (set_value_get _ _ _ _ Hv E) as [G1 [S1 [P1 C1]]].
      unfold add, bind; rewrite C1, M, G1.
      rewrite Zplus_mod_idemp_l, Z.sub_add, Z.mod_small by lia; exact S1.
    + destruct (Z.ltb_spec v c); [discriminate|].
      intros E; destruct (set_value_get _ _ _ _ Hv E) as [G1 [S1 [P1 C1]]].
      unfold add, bind; rewrite C1, M, G1.
      destruct (Z.ltb_spec u8_max (v - c + c)); [unfold u8_max in *; lia|].
      rewrite Z.sub_add; exact S1.
  - intros M; split.
    + destruct (set_value_spec t v ((v + c) mod 256) Hv) as [t1 [E _]].
      exists t1; unfold add, bind; rewrite M, Hv; exact E.
    + destruct (set_value_spec t v ((v - c) mod 256) Hv) as [t1 [E _]].
      exists t1; unfold sub, bind; rewrite M, Hv; exact E.
Qed.

(** Under the [Nothing] (clamp) cell policy, [add] and [sub] never fail on
    a readable cell: [add(c)] leaves [min(v + c, 255)] and [sub(c)] leaves
    [max(v - c, 0)]. *)
Theorem clamp_add_sub_saturate (t : Tape) (v : Z)
    (Hm : cell_behaviour t = Nothing) (Hv : get_value t = Ok t v) :
  (forall c, exists t', add c t = Ok t' tt /\ get_value t' = Ok t' (Z.min (v + c) 255)) /\
  (forall c, exists t', sub c t = Ok t' tt /\ get_value t' = Ok t' (Z.max (v - c) 0)).
Proof.
  split; intros c.
  - destruct (set_value_spec t v (if v + c <=? u8_max then v + c else u8_max) Hv)
      as [t' [E [G _]]].
    exists t'; unfold add, bind; rewrite Hm, Hv; split; [exact E|].
    rewrite G; f_equal; unfold u8_max; destruct (Z.leb_spec (v + c) 255); lia.
  - destruct (set_value_spec t v (if c <=? v then v - c else 0) Hv)
      as [t' [E [G _]]].
    exists t'; unfold sub, bind; rewrite Hm, Hv; split; [exact E|].
    rewrite G; f_equal; destruct (Z.leb_spec c v); lia.
Qed.

(** Under the [Panic] cell policy, [add(c)] fails exactly when [v + c]
    exceeds 255 and [sub(c)] exactly when [c] exceeds [v]; a failure leaves
    the tape as it was and its message names the address, the value and
    the count (with the bound printed as 0 for [add] and 255 for [sub]);
    otherwise the cell holds [v + c], resp. [v - c]. *)
Theorem fail_cells_checked (t : Tape) (v : Z)
    (Hm : cell_behaviour t = CPanic) (Hv : get_value t = Ok t v) :
  (forall c, 255 < v + c ->
     add c t = Err t (mkBFError RuntimeError
       ("Cell " ++ show_Z (pointer t) ++ " (value " ++ show_Z v
        ++ ") would go above 0 if " ++ show_Z c ++ " were added")%string)) /\
  (forall c, v + c <= 255 ->
     exists t', add c t = Ok t' tt /\ get_value t' = Ok t' (v + c)) /\
  (forall c, v < c ->
     sub c t = Err t (mkBFError RuntimeError
       ("Cell " ++ show_Z (pointer t) ++ " (value " ++ show_Z v
        ++ ") would go below 255 if " ++ show_Z c ++ " were subtracted")%string)) /\
  (forall c, c <= v ->
     exists t', sub c t = Ok t' tt /\ get_value t' = Ok t' (v - c)).
Proof.
  split; [|split; [|split]]; intros c Hc.
  - unfold add, bind, throw; rewrite Hm, Hv.
    destruct (Z.ltb_spec u8_max (v + c)); [reflexivity|unfold u8_max in *; lia].
  - destruct (set_value_spec t v (v + c) Hv) as [t' [E [G _]]].
    exists t'; unfold add, bind; rewrite Hm, Hv.
    destruct (Z.ltb_spec u8_max (v + c)); [unfold u8_max in *; lia|auto].
  - unfold sub, bind, throw; rewrite Hm, Hv.
    destruct (Z.ltb_spec v c); [reflexivity|lia].
  - destruct (set_value_spec t v (v - c) Hv) as [t' [E [G _]]].
    exists t'; unfold sub, bind; rewrite Hm, Hv.
    destruct (Z.ltb_spec v c); [lia|auto].
Qed.

(** Under the [Panic] tape policy, [left(c)] fails exactly when [c] exceeds
    the pointer and [right(c)] exactly when [pointer + c] exceeds the
    configured [size]; a failure leaves the tape as it was, and a success
    only moves the pointer by [c]. *)
Theorem panic_tape_moves (t : Tape)
    (Hm : tape_behaviour t = TPanic) (Hs : size t < 2 ^ 128) :
  (forall c, pointer t < c ->
     left c t = Err t (mkBFError RuntimeError
       ("Tape pointer would be below 0 if moved left " ++ show_Z c
        ++ " spaces from " ++ show_Z (pointer t))%string)) /\
  (forall c, c <= pointer t -> left c t = Ok (set_ptr t (pointer t - c)) tt) /\
  (forall c, size t < pointer t + c ->
     right c t = Err t (mkBFError RuntimeError
       ("Tape pointer would be above " ++ show_Z (tape_len t) ++ " if moved right "
        ++ show_Z c ++ " spaces from " ++ show_Z (pointer t))%string)) /\
  (forall c, pointer t + c <= size t ->
     right c t = Ok (set_ptr t (pointer t + c)) tt).
Proof.
  split; [|split; [|split]]; intros c Hc; unfold left, right; rewrite Hm.
  - destruct (Z.ltb_spec (pointer t) c); [reflexivity|lia].
  - destruct (Z.ltb_spec (pointer t) c); [lia|reflexivity].
  - destruct (Z.ltb_spec (size t) (pointer t + c)); [|lia].
    rewrite orb_true_r; reflexivity.
  - unfold u128_modulus.
    destruct (Z.leb_spec (2 ^ 128) (pointer t + c)); [lia|].
    destruct (Z.ltb_spec (size t) (pointer t + c)); [lia|reflexivity].
Qed.

(** Under the [Circular] tape policy, from a valid pointer [p] on a tape of
    [L] cells, [left(c)] for [c <= L] moves the pointer to [(p - c) mod L]
    and leaves the cells alone; a move of more than [p + L] panics (the
    [u128] subtraction underflows) instead of wrapping again. *)
Theorem circular_left_wraps (t : Tape)
    (Hm : tape_behaviour t = TCircular) (Hv : pointer_valid t) :
  (forall c, 0 <= c <= tape_len t ->
     exists t', left c t = Ok t' tt /\
       pointer t' = (pointer t - c) mod tape_len t /\ cells t' = cells t) /\
  (forall c, pointer t + tape_len t < c -> left c t = Panic).
Proof.
  unfold pointer_valid in Hv; split.
  - intros c Hc; unfold left; rewrite Hm.
    destruct (Z.leb_spec c (pointer t)).
    + eexists; split; [reflexivity|]; simpl; split; [|reflexivity].
      symmetry; apply Z.mod_small; lia.
    + unfold u128_sub; destruct (Z.ltb_spec (tape_len t) (c - pointer t)); [lia|].
      eexists; split; [reflexivity|]; simpl; split; [|reflexivity].
      rewrite <- (Z_mod_plus_full (pointer t - c) 1 (tape_len t)).
      rewrite Z.mod_small by lia; lia.
  - intros c Hc; unfold left; rewrite Hm.
    destruct (Z.leb_spec c (pointer t)); [lia|].
    unfold u128_sub; destruct (Z.ltb_spec (tape_len t) (c - pointer t)); [reflexivity|lia].
Qed.


(** ** The executor *)

(** The parts of a tape no operation may change. *)
Definition tape_config_same (t t' : Tape) : Prop :=
  size t' = size t /\ tape_behaviour t' = tape_behaviour t /\
  cell_behaviour t' = cell_behaviour t /\ shift t' = shift t.

(** How an executor state may evolve: same tape configuration and flags,
    output only appended to, input only consumed from the front. *)
Definition evolves (st st' : PState) : Prop :=
  tape_config_same (tape st) (tape st') /\ flag st' = flag st /\
  (exists o, output st' = output st ++ o) /\ (exists i, input st = i ++ input st').

Definition result_evolves {A} (st : PState) (o : outcome PState A) : Prop :=
  match o with
  | Ok st' _ | Err st' _ => evolves st st'
  | _ => True
  end.

Definition keeps {A} (m : M PState A) : Prop := forall st, result_evolves st (m st).

Definition tkeeps {A} (m : M Tape A) : Prop :=
  forall t, match m t with
            | Ok t' _ | Err t' _ => tape_config_same t t'
            | _ => True
            end.

Lemma evolves_refl (st : PState) : evolves st st.
Proof.
  repeat split; [exists []; rewrite app_nil_r | exists []]; reflexivity.
Qed.

Lemma evolves_trans (s1 s2 s3 : PState) : evolves s1 s2 -> evolves s2 s3 -> evolves s1 s3.
Proof.
  intros [[A1 [B1 [C1 D1]]] [F1 [[o1 O1] [i1 I1]]]] [[A2 [B2 [C2 D2]]] [F2 [[o2 O2] [i2 I2]]]].
  repeat split; try congruence.
  - exists (o1 ++ o2); rewrite O2, O1, app_assoc; reflexivity.
  - exists (i1 ++ i2); rewrite I1, I2, app_assoc; reflexivity.
Qed.

Lemma keeps_bind {A B} (m : M PState A) (k : A -> M PState B) :
  keeps m -> (forall a, keeps (k a)) -> keeps (bind m k).
Proof.
  intros Hm Hk st; unfold bind; specialize (Hm st).
  destruct (m st) as [s1 a|s1 e| |]; simpl in *; auto.
  specialize (Hk a s1); destruct (k a s1); simpl in *; auto;
    eapply evolves_trans; eauto.
Qed.

Lemma keeps_ret {A} (a : A) : keeps (ret a).
Proof. intros st; apply evolves_refl. Qed.

Lemma keeps_get : keeps get.
Proof. intros st; apply evolves_refl. Qed.

Lemma keeps_throw {A} (e : BFError) : keeps (@throw _ A e).
Proof. intros st; apply evolves_refl. Qed.

Lemma keeps_panic {A} : keeps (@panic _ A).
Proof. intros st; exact I. Qed.

Lemma keeps_on_tape {A} (m : M Tape A) : tkeeps m -> keeps (on_tape m).
Proof.
  intros Hm st; unfold on_tape; specialize (Hm (tape st)).
  destruct (m (tape st)); simpl; auto;
    (repeat split; [apply Hm|apply Hm|apply Hm|apply Hm| |]);
    [exists []; rewrite app_nil_r| exists [] | exists []; rewrite app_nil_r| exists []];
    reflexivity.
Qed.

Ltac cfg := unfold tape_config_same; simpl; repeat split.

Lemma tkeeps_get_value : tkeeps get_value.
Proof. intros t; unfold get_value; destruct zlookup; cfg. Qed.

Lemma tkeeps_get_value_at_index a : tkeeps (get_value_at_index a).
Proof. intros t; unfold get_value_at_index; destruct zlookup; cfg. Qed.

Lemma tkeeps_set_value v : tkeeps (set_value v).
Proof. intros t; unfold set_value; destruct zupdate; auto; cfg. Qed.

Lemma tkeeps_bind {A B} (m : M Tape A) (k : A -> M Tape B) :
  tkeeps m -> (forall a, tkeeps (k a)) -> tkeeps (bind m k).
Proof.
  intros Hm Hk t; unfold bind; specialize (Hm t).
  destruct (m t) as [t1 a|t1 e| |]; auto.
  specialize (Hk a t1); destruct (k a t1); auto;
    destruct Hm as [A1 [B1 [C1 D1]]], Hk as [A2 [B2 [C2 D2]]]; repeat split; congruence.
Qed.

Ltac tkeeps_leaf :=
  repeat match goal with
         | |- context [if ?b then _ else _] => destruct b
         | |- context [match ?m with Some _ => _ | None => _ end] => destruct m
         end; try exact I; cfg.

Lemma tkeeps_add c : tkeeps (add c).
Proof.
  intros t; unfold add; destruct (cell_behaviour t);
    (apply tkeeps_bind; [apply tkeeps_get_value|intros v]);
    try apply tkeeps_set_value.
  intros t1; unfold throw; destruct (u8_max <? v + c);
    [cfg|apply tkeeps_set_value].
Qed.

Lemma tkeeps_sub c : tkeeps (sub c).
Proof.
  intros t; unfold sub; destruct (cell_behaviour t);
    (apply tkeeps_bind; [apply tkeeps_get_value|intros v]);
    try apply tkeeps_set_value.
  intros t1; unfold throw; destruct (v <? c);
    [cfg|apply tkeeps_set_value].
Qed.

Lemma tkeeps_left c : tkeeps (left c).
Proof. intros t; unfold left; destruct (tape_behaviour t); tkeeps_leaf. Qed.

Lemma tkeeps_right c : tkeeps (right c).
Proof. intros t; unfold right; destruct (tape_behaviour t); tkeeps_leaf. Qed.

Lemma tkeeps_set_pointer a : tkeeps (set_pointer a).
Proof. intros t; cfg. Qed.

Lemma tkeeps_clear : tkeeps clear.
Proof. intros t; cfg. Qed.

Lemma tkeeps_realign : tkeeps realign.
Proof. intros t; cfg. Qed.

Lemma keeps_read_input : keeps read_input.
Proof.
  intros st; unfold read_input.
  destruct (input st) as [|c rest] eqn:Hi; [exact I|].
  unfold on_tape; simpl.
  pose proof (tkeeps_set_value c (tape st)) as H.
  destruct (set_value c (tape st)); simpl; auto;
    (repeat split; [apply H|apply H|apply H|apply H| |]);
    [exists []; rewrite app_nil_r| exists [c]; rewrite Hi
    |exists []; rewrite app_nil_r| exists [c]; rewrite Hi]; reflexivity.
Qed.

Lemma keeps_write_output : keeps write_output.
Proof.
  unfold write_output; apply keeps_bind; [apply keeps_on_tape, tkeeps_get_value|].
  intros v st; repeat split; [exists [v]; reflexivity|exists []; reflexivity].
Qed.

(** The scan of [assign_alias_address] reads the tape only. *)
Lemma alias_scan_state (n : nat) (index : Z) (st : PState) :
  match alias_scan n index st with
  | Ok st' _ => st' = st
  | Err _ _ => False
  | _ => True
  end.
Proof.
  revert index; induction n as [|n IH]; intros index; simpl; [exact I|].
  unfold bind at 1, on_tape, get_value_at_index.
  destruct (zlookup (cells (tape st)) (as_usize index)); [|exact I].
  rewrite set_tape_same; unfold bind, get.
  destruct (negb (z =? 0) || contains_right (aliases st) index); [|reflexivity].
  destruct (u128_sub index 1); [apply IH|exact I].
Qed.

Lemma keeps_assign_alias_address key : keeps (assign_alias_address key).
Proof.
  intros st; unfold assign_alias_address, bind at 1, get at 1.
  destruct (u128_sub (tape_len (tape st)) 1) as [start|]; [|exact I].
  unfold bind; pose proof (alias_scan_state (S (Z.to_nat start)) start st) as H.
  destruct (alias_scan (S (Z.to_nat start)) start st); try contradiction; try exact I.
  subst; apply (evolves_refl st).
Qed.

Lemma keeps_run_one f : forall i, keeps (run_one f i).
Proof.
  induction f as [|f IH]; intros i; [intros st; exact I|].
  destruct i; cbn [run_one].
  - apply keeps_on_tape, tkeeps_add.
  - apply keeps_on_tape, tkeeps_sub.
  - match goal with |- keeps (?P ?n) => assert (HP : forall m, keeps (P m)); [|apply HP] end.
    induction m as [|m IHm]; [intros st; exact I|].
    simpl; apply keeps_bind; [apply keeps_on_tape, tkeeps_get_value|intros v].
    destruct (v =? 0); [apply keeps_ret|apply keeps_bind; [|intros; exact IHm]].
    match goal with |- keeps (?RB body) => assert (HB : forall l, keeps (RB l)); [|apply HB] end.
    induction l as [|[sp i] l IHl]; [apply keeps_ret|].
    apply keeps_bind; [apply IH|intros; exact IHl].
  - apply keeps_on_tape, tkeeps_left.
  - apply keeps_on_tape, tkeeps_right.
  - apply keeps_read_input.
  - apply keeps_write_output.
  - apply keeps_bind; [apply keeps_get|intros st].
    destruct (get_by_left (aliases st) name); [apply keeps_on_tape, tkeeps_set_pointer|].
    destruct (disable_alloc (flag st)); [|apply keeps_throw].
    apply keeps_bind; [apply keeps_assign_alias_address|intros; apply keeps_on_tape, tkeeps_set_pointer].
Qed.

Lemma keeps_run_all f l : keeps (run_all f l).
Proof.
  induction l as [|[sp i] l IH]; [apply keeps_ret|].
  apply keeps_bind; [apply keeps_run_one|intros; exact IH].
Qed.

(** A run ([Program::run], and so every instruction it executes) never
    changes the configured tape size, the two policies, [shift] or the
    flags; it only appends to the output and only consumes the input from
    its front, also when it stops on an error. *)
Theorem run_keeps_configuration (fuel : nat) (l : list (Span * Instruction))
    (st st' : PState)
    (Hr : run fuel l st = Ok st' tt \/ exists e, run fuel l st = Err st' e) :
  size (tape st') = size (tape st) /\
  tape_behaviour (tape st') = tape_behaviour (tape st) /\
  cell_behaviour (tape st') = cell_behaviour (tape st) /\
  shift (tape st') = shift (tape st) /\ flag st' = flag st /\
  (exists o, output st' = output st ++ o) /\ (exists i, input st = i ++ input st').
Proof.
  assert (K : keeps (run fuel l)).
  { unfold run; apply keeps_bind; [apply keeps_on_tape, tkeeps_clear|intros _].
    apply keeps_bind; [apply keeps_on_tape, tkeeps_realign|intros _].
    apply keeps_run_all. }
  specialize (K st).
  assert (E : evolves st st').
  { destruct Hr as [Hr|[e Hr]]; rewrite Hr in K; exact K. }
  destruct E as [[A [B [C D]]] [F [O I]]]; repeat split; assumption.
Qed.

(** A [Loop] on a cell holding 0 does nothing; and a [Loop] that finishes
    normally always leaves the pointer on a cell holding 0. *)
Theorem loop_zero_cell (fuel : nat) (body : list (Span * Instruction)) :
  (forall st, get_value (tape st) = Ok (tape st) 0 ->
     run_one (S (S fuel)) (ILoop body) st = Ok st tt) /\
  (forall st st', run_one fuel (ILoop body) st = Ok st' tt ->
     get_value (tape st') = Ok (tape st') 0).
Proof.
  split.
  - intros st H; cbn [run_one]; unfold bind at 1, on_tape; rewrite H.
    rewrite set_tape_same; reflexivity.
  - destruct fuel as [|f]; [discriminate|]; cbn [run_one].
    match goal with |- forall st st', ?P ?n st = _ -> _ =>
      assert (HP : forall m st st', P m st = Ok st' tt ->
                   get_value (tape st') = Ok (tape st') 0); [|apply HP] end.
    induction m as [|m IHm]; intros st st' H; [discriminate|].
    simpl in H; unfold bind at 1, on_tape in H.
    destruct (get_value (tape st)) as [t v| | |] eqn:G; try discriminate.
    pose proof (get_value_state _ _ _ G); subst t.
    rewrite set_tape_same in H.
    destruct (Z.eqb_spec v 0).
    + injection H as <-; subst; exact G.
    + unfold bind in H.
      match type of H with context [match ?x with Ok _ _ => _ | _ => _ end] =>
        destruct x eqn:R; try discriminate end.
      exact (IHm _ _ H).
Qed.

Lemma assign_alias_address_ok (key : string) (st st' : PState) (a : Z) :
  assign_alias_address key st = Ok st' a ->
  st' = set_aliases st (bimap_insert (aliases st) key a).
Proof.
  unfold assign_alias_address, bind at 1, get at 1.
  destruct (u128_sub (tape_len (tape st)) 1) as [start|]; [|discriminate].
  unfold bind; pose proof (alias_scan_state (S (Z.to_nat start)) start st) as H.
  destruct (alias_scan (S (Z.to_nat start)) start st); try discriminate; try contradiction.
  subst; unfold get, put, ret; intros E; injection E as <- <-; reflexivity.
Qed.

(** After a successful [Goto(name)], [name] is bound and the pointer is on
    its address, whether the binding existed or was made on the spot (with
    pre-allocation disabled); so every later [Goto(name)] returns there. *)
Theorem goto_lands_on_binding (fuel : nat) (key : string) (st st' : PState)
    (H : run_one (S fuel) (IGoto key) st = Ok st' tt) :
  get_by_left (aliases st') key = Some (pointer (tape st')).
Proof.
  cbn [run_one] in H; unfold bind at 1, get at 1 in H.
  destruct (get_by_left (aliases st) key) as [a|] eqn:B.
  - injection H as <-; simpl; exact B.
  - destruct (disable_alloc (flag st)); [|discriminate].
    unfold bind in H; destruct (assign_alias_address key st) as [s1 a| | |] eqn:A;
      try discriminate.
    apply assign_alias_address_ok in A; subst s1.
    injection H as <-; simpl.
    unfold get_by_left, bimap_insert; simpl; rewrite String.eqb_refl; reflexivity.
Qed.

(** ** Alias allocation *)

Lemma alias_scan_full (st : PState) (Hlen : tape_len (tape st) <= 2 ^ 64) :
  forall n index,
    0 <= index < tape_len (tape st) -> (Z.to_nat index < n)%nat ->
    (forall b, 0 <= b <= index -> ~ alias_eligible st b) ->
    alias_scan n index st = Panic.
Proof.
  induction n as [|f IH]; intros index Hi Hn Hfull; [lia|].
  destruct (zlookup_in_range (cells (tape st)) index) as [v Hv]; [exact Hi|].
  simpl; unfold bind at 1; rewrite (read_cell_at st index v) by (auto; lia).
  unfold bind, get.
  destruct (negb (v =? 0) || contains_right (aliases st) index) eqn:Hc.
  - unfold u128_sub; destruct (Z.ltb_spec index 1); [reflexivity|].
    apply IH; [lia|lia|intros b Hb; apply Hfull; lia].
  - exfalso; apply (Hfull index); [lia|].
    apply orb_false_iff in Hc as [Hv0 Hcr].
    apply negb_false_iff, Z.eqb_eq in Hv0; subst v; split; assumption.
Qed.

Lemma assign_full_panic (st : PState) (key : string)
    (Hlen : tape_len (tape st) <= 2 ^ 64)
    (Hfull : forall a, 0 <= a < tape_len (tape st) -> ~ alias_eligible st a) :
  assign_alias_address key st = Panic.
Proof.
  unfold assign_alias_address, bind at 1, get at 1.
  unfold u128_sub; destruct (Z.ltb_spec (tape_len (tape st)) 1); [reflexivity|].
  unfold bind; rewrite alias_scan_full; [reflexivity|exact Hlen|lia|lia|].
  intros b Hb; apply Hfull; lia.
Qed.

(** [assign_alias_address] with no usable address (every cell nonzero or
    claimed, or a tape of no cells) panics: the scan's [index -= 1]
    underflows below 0 (or [size() - 1] does). *)
Theorem assign_alias_address_full_panics (st : PState) (key : string)
    (Hlen : tape_len (tape st) <= 2 ^ 64)
    (Hfull : forall a, 0 <= a < tape_len (tape st) -> ~ alias_eligible st a) :
  assign_alias_address key st = Panic.
Proof. exact (assign_full_panic st key Hlen Hfull). Qed.

Lemma assign_highest (st : PState) (key : string)
    (Hlen : 1 <= tape_len (tape st) <= 2 ^ 64)
    (Hfree : exists a, 0 <= a < tape_len (tape st) /\ alias_eligible st a) :
  exists a,
    assign_alias_address key st = Ok (set_aliases st (bimap_insert (aliases st) key a)) a /\
    0 <= a < tape_len (tape st) /\ alias_eligible st a /\
    (forall b, a < b < tape_len (tape st) -> ~ alias_eligible st b).
Proof.
  unfold assign_alias_address, bind at 1, get at 1.
  unfold u128_sub; destruct (Z.ltb_spec (tape_len (tape st)) 1); [lia|].
  destruct (alias_scan_spec st ltac:(lia) (S (Z.to_nat (tape_len (tape st) - 1)))
              (tape_len (tape st) - 1)) as [a [Hs [Ha [He Hmax]]]];
    [lia|lia|destruct Hfree as [a [Ha Hea]]; exists a; split; [lia|exact Hea]|].
  unfold bind; rewrite Hs; unfold get, put, ret.
  exists a; split; [reflexivity|]; split; [lia|]; split; [exact He|].
  intros b Hb; apply Hmax; lia.
Qed.

Lemma run_prealloc_app (l1 l2 : list string) (st : PState) :
  run_prealloc (l1 ++ l2) st = bind (run_prealloc l1) (fun _ => run_prealloc l2) st.
Proof.
  revert st; induction l1 as [|n l1 IH]; intros st; [reflexivity|].
  simpl; unfold bind in *; destruct (assign_alias_address n st); try reflexivity.
  apply IH.
Qed.

(** The table binds the [i]-th name of [done] to [L - 1 - i], and nothing
    else. *)
Definition claimed_exactly (L : Z) (done : list string) (tbl : BiMap) : Prop :=
  forall x v, In (x, v) tbl <-> exists i, nth_error done i = Some x /\ v = L - 1 - Z.of_nat i.

Lemma get_by_left_unique (tbl : BiMap) (x : string) (v : Z) :
  In (x, v) tbl -> (forall v', In (x, v') tbl -> v' = v) -> get_by_left tbl x = Some v.
Proof.
  induction tbl as [|[y w] tbl IH]; intros Hin Hu; [destruct Hin|].
  unfold get_by_left; simpl.
  destruct (String.eqb_spec y x) as [->|Hne].
  - f_equal; apply Hu; left; reflexivity.
  - destruct Hin as [E|Hin]; [injection E as E _; contradiction|].
    apply IH; auto; intros v' H'; apply Hu; right; exact H'.
Qed.

Lemma contains_right_claimed (L : Z) (done : list string) (tbl : BiMap) (b : Z) :
  claimed_exactly L done tbl ->
  contains_right tbl b = true <-> L - Z.of_nat (List.length done) <= b <= L - 1.
Proof.
  intros Hc; unfold contains_right; rewrite existsb_exists; split.
  - intros [[x w] [Hin Hw]]; apply Z.eqb_eq in Hw; subst w.
    apply Hc in Hin as [i [Hi ->]].
    assert (i < List.length done)%nat by (apply nth_error_Some; congruence); lia.
  - intros Hb.
    set (i := Z.to_nat (L - 1 - b)).
    destruct (nth_error done i) as [x|] eqn:Hi;
      [|apply nth_error_None in Hi; unfold i in Hi; lia].
    exists (x, b); split; [apply Hc; exists i; split; [exact Hi|unfold i; lia]|].
    apply Z.eqb_refl.
Qed.

Lemma filter_id {A} (f : A -> bool) (l : list A) :
  (forall x, In x l -> f x = true) -> filter f l = l.
Proof.
  induction l as [|x l IH]; intros H; simpl; [reflexivity|].
  rewrite (H x (or_introl eq_refl)), IH; auto.
  intros y Hy; apply H; right; exact Hy.
Qed.

Lemma prealloc_steps (L : nat) (HL : Z.of_nat L <= 2 ^ 64) :
  forall rest done st,
    cells (tape st) = repeat 0 L ->
    NoDup (done ++ rest) -> claimed_exactly (Z.of_nat L) done (aliases st) ->
    (List.length done + List.length rest <= L)%nat ->
    exists st', run_prealloc rest st = Ok st' tt /\ tape st' = tape st /\
      claimed_exactly (Z.of_nat L) (done ++ rest) (aliases st').
Proof.
  induction rest as [|n rest IH]; intros done st Hcells Hnd Hcl Hn.
  - exists st; rewrite app_nil_r; auto.
  - set (k := List.length done) in *; simpl in Hn.
    assert (Htl : tape_len (tape st) = Z.of_nat L)
      by (unfold tape_len, zlen; rewrite Hcells, repeat_length; reflexivity).
    assert (Elig : forall b, 0 <= b < Z.of_nat L ->
              alias_eligible st b <-> b < Z.of_nat L - Z.of_nat k).
    { intros b Hb; unfold alias_eligible; rewrite Hcells, zlookup_repeat by lia.
      pose proof (contains_right_claimed _ _ _ b Hcl) as C; fold k in C.
      destruct (contains_right (aliases st) b); split; intros H.
      - destruct H as [_ H]; discriminate.
      - assert (true = true) as T by reflexivity; apply C in T; lia.
      - lia.
      - split; [reflexivity|reflexivity]. }
    destruct (assign_highest st n) as [a [Ha [Har [Hae Hmax]]]].
    { rewrite Htl; lia. }
    { exists (Z.of_nat L - 1 - Z.of_nat k); rewrite Htl; split; [lia|].
      apply Elig; lia. }
    rewrite Htl in Har, Hmax.
    assert (Ea : a = Z.of_nat L - 1 - Z.of_nat k).
    { apply Elig in Hae; [|lia].
      destruct (Z.lt_total a (Z.of_nat L - 1 - Z.of_nat k)) as [Hlt|[E|Hgt]]; [|exact E|lia].
      exfalso; apply (Hmax (Z.of_nat L - 1 - Z.of_nat k)); [lia|apply Elig; lia]. }
    subst a.
    assert (Hnin : ~ In n done).
    { intros Hin; apply NoDup_remove_2 in Hnd; apply Hnd, in_or_app; left; exact Hin. }
    assert (Hf : filter (fun '(a, b) => negb (String.eqb a n) &&
                          negb (Z.eqb b (Z.of_nat L - 1 - Z.of_nat k))) (aliases st)
                 = aliases st).
    { apply filter_id; intros [x w] Hin.
      apply Hcl in Hin as [i [Hi ->]].
      assert (i < k)%nat by (apply nth_error_Some; unfold k; congruence).
      destruct (String.eqb_spec x n) as [->|_];
        [exfalso; apply Hnin; eapply nth_error_In; exact Hi|].
      destruct (Z.eqb_spec (Z.of_nat L - 1 - Z.of_nat i) (Z.of_nat L - 1 - Z.of_nat k));
        [lia|reflexivity]. }
    destruct (IH (done ++ [n]) (set_aliases st (bimap_insert (aliases st) n
                                   (Z.of_nat L - 1 - Z.of_nat k))))
      as [st' [R [T C]]].
    + exact Hcells.
    + rewrite <- app_assoc; exact Hnd.
    + unfold set_aliases, bimap_insert; simpl; rewrite Hf.
      intros x v; split.
      * intros [E|Hin].
        -- injection E as <- <-; exists k; split; [|reflexivity].
           rewrite nth_error_app2 by lia; unfold k; rewrite Nat.sub_diag; reflexivity.
        -- apply Hcl in Hin as [i [Hi ->]]; exists i; split; [|reflexivity].
           rewrite nth_error_app1 by (apply nth_error_Some; congruence); exact Hi.
      * intros [i [Hi ->]].
        destruct (Nat.lt_ge_cases i k) as [Hik|Hik].
        -- right; apply Hcl; exists i; split; [|reflexivity].
           rewrite nth_error_app1 in Hi by exact Hik; exact Hi.
        -- rewrite nth_error_app2 in Hi by exact Hik; fold k in Hi.
           destruct (i - k)%nat as [|j] eqn:Ej; simpl in Hi;
             [|destruct j; simpl in Hi; discriminate Hi].
           injection Hi as <-; left; f_equal; f_equal; f_equal; unfold k in *; lia.
    + rewrite length_app; simpl; lia.
    + exists st'; split; [|split; [rewrite T; reflexivity|rewrite <- app_assoc in C; exact C]].
      simpl; unfold bind; rewrite Ha; exact R.
Qed.

Lemma claimed_exactly_nil (L : Z) : claimed_exactly L [] [].
Proof. intros x v; split; [intros []|intros [i [Hi _]]; destruct i; discriminate]. Qed.

(** [run_prealloc] of distinct names on a tape of [L] zero cells with an
    empty table binds the [i]-th name to address [L - 1 - i] (the names
    fill the tape from its end) and leaves the tape alone; with more names
    than cells it panics. *)
Theorem prealloc_fresh_tape (names : list string) (st : PState) (L : nat)
    (Hcells : cells (tape st) = repeat 0 L) (Hal : aliases st = [])
    (Hnd : NoDup names) (HL : Z.of_nat L <= 2 ^ 64) :
  ((List.length names <= L)%nat ->
     exists st', run_prealloc names st = Ok st' tt /\ tape st' = tape st /\
       forall i name, nth_error names i = Some name ->
         get_by_left (aliases st') name = Some (Z.of_nat L - 1 - Z.of_nat i)) /\
  ((L < List.length names)%nat -> run_prealloc names st = Panic).
Proof.
  assert (Hcl0 : claimed_exactly (Z.of_nat L) [] (aliases st))
    by (rewrite Hal; apply claimed_exactly_nil).
  split.
  - intros Hn.
    destruct (prealloc_steps L HL names [] st Hcells Hnd Hcl0 Hn) as [st' [R [T C]]].
    exists st'; split; [exact R|]; split; [exact T|].
    intros i name Hi; simpl in C.
    apply get_by_left_unique; [apply C; exists i; auto|].
    intros v' Hv'; apply C in Hv' as [i' [Hi' ->]].
    assert (i' = i); [|subst; reflexivity].
    apply (proj1 (NoDup_nth_error names) Hnd); [apply nth_error_Some; congruence|congruence].
  - intros Hn.
    rewrite <- (firstn_skipn L names) in Hnd |- *.
    assert (Hf : List.length (firstn L names) = L) by (rewrite length_firstn; lia).
    destruct (skipn L names) as [|n rest] eqn:Hs.
    { rewrite <- (firstn_skipn L names), Hs, app_nil_r in Hn; lia. }
    destruct (prealloc_steps L HL (firstn L names) [] st Hcells
                (NoDup_app_remove_r _ _ Hnd) Hcl0 ltac:(simpl; lia)) as [st1 [R [T C]]].
    rewrite run_prealloc_app; unfold bind at 1; rewrite R.
    simpl; unfold bind; rewrite assign_full_panic; [reflexivity| |].
    + unfold tape_len, zlen; rewrite T, Hcells, repeat_length; exact HL.
    + intros a Ha [_ Hc].
      unfold tape_len, zlen in Ha; rewrite T, Hcells, repeat_length in Ha.
      pose proof (proj2 (contains_right_claimed _ _ _ a C)) as H.
      simpl in H; rewrite Hf in H; rewrite H in Hc; [discriminate|lia].
Qed.

(** ** The parser *)

(** The one-character commands [+ - > < . ,] and what [parse_one] makes of
    them. *)
Definition unit_command (c : ascii) : bool :=
  Ascii.eqb c "+" || Ascii.eqb c "-" || Ascii.eqb c ">" || Ascii.eqb c "<"
  || Ascii.eqb c "." || Ascii.eqb c ",".

Definition unit_ins (c : ascii) : Instruction :=
  if Ascii.eqb c "+" then IAdd 1
  else if Ascii.eqb c "-" then ISubtract 1
  else if Ascii.eqb c ">" then IRight 1
  else if Ascii.eqb c "<" then ILeft 1
  else if Ascii.eqb c "." then IOutput
  else IInput.

(** One instruction of span [(i, 1)] per character, from offset [i]. *)
Fixpoint unit_parse (i : nat) (s : string) : list (Span * Instruction) :=
  match s with
  | EmptyString => []
  | String c s' => ((i, 1%nat), unit_ins c) :: unit_parse (S i) s'
  end.

Fixpoint all_chars (P : ascii -> bool) (s : string) : bool :=
  match s with
  | EmptyString => true
  | String c s' => P c && all_chars P s'
  end.

Lemma string_length_app (s1 s2 : string) :
  String.length (s1 ++ s2) = (String.length s1 + String.length s2)%nat.
Proof. induction s1 as [|c s1 IH]; simpl; auto. Qed.

Lemma string_get_app_len (s1 s2 : string) (j : nat) :
  String.get (String.length s1 + j) (s1 ++ s2) = String.get j s2.
Proof. induction s1 as [|c s1 IH]; simpl; auto. Qed.

Lemma string_app_assoc (s1 s2 s3 : string) : ((s1 ++ s2) ++ s3 = s1 ++ (s2 ++ s3))%string.
Proof. induction s1 as [|c s1 IH]; simpl; [reflexivity|rewrite IH; reflexivity]. Qed.

Lemma unit_command_cases (c : ascii) :
  unit_command c = true ->
  c = "+"%char \/ c = "-"%char \/ c = ">"%char \/ c = "<"%char \/ c = "."%char \/ c = ","%char.
Proof.
  unfold unit_command; intros H.
  repeat (apply orb_true_iff in H as [H|H]); apply Ascii.eqb_eq in H; subst; tauto.
Qed.

Lemma mk_span_succ (i : nat) : mk_span i (S i) = (i, 1%nat).
Proof. unfold mk_span; f_equal; lia. Qed.

(** [parse_one] on a one-character command. *)
Lemma parse_one_unit (f : nat) (p : Parser) (c : ascii) :
  String.get (index p) (src p) = Some c -> unit_command c = true ->
  parse_one (S f) p = Ok (set_index p (S (index p))) ((index p, 1%nat), unit_ins c).
Proof.
  intros G U; cbn [parse_one]; unfold bind at 1.
  destruct (unit_command_cases c U) as [E|[E|[E|[E|[E|E]]]]]; subst c;
    rewrite (skip_whitespace_at _ _ _ G) by reflexivity;
    unfold bind, get, advance, ret; simpl; rewrite mk_span_succ; reflexivity.
Qed.

(** [parse_top] over a run [u] of one-character commands. *)
Lemma parse_top_units (u : string) :
  forall pre tail f acc p,
    src p = (pre ++ u ++ tail)%string -> index p = String.length pre ->
    all_chars unit_command u = true ->
    parse_top (String.length u + f) acc p =
    parse_top f (rev (unit_parse (index p) u) ++ acc)
              (set_index p (index p + String.length u)).
Proof.
  induction u as [|c u IH]; intros pre tail f acc p Hs Hi Hu.
  - simpl; rewrite Nat.add_0_r; destruct p; reflexivity.
  - simpl in Hu |- *; apply andb_true_iff in Hu as [Hc Hu].
    assert (G : String.get (index p) (src p) = Some c).
    { rewrite Hs, Hi, <- (Nat.add_0_r (String.length pre)), string_get_app_len; reflexivity. }
    pose proof (get_some_lt _ _ _ G) as Hlt.
    destruct (Nat.ltb_spec (index p) (String.length (src p))); [|lia].
    unfold bind; rewrite Nat.add_1_r, (parse_one_unit _ _ _ G Hc).
    rewrite (IH (pre ++ String c EmptyString)%string tail f).
    + simpl; rewrite <- app_assoc; simpl; f_equal; unfold set_index; simpl; f_equal; lia.
    + simpl; rewrite Hs, string_app_assoc; reflexivity.
    + simpl; rewrite string_length_app, Hi; simpl; lia.
    + exact Hu.
Qed.

Lemma string_get_at_len (s1 s2 : string) :
  String.get (String.length s1) (s1 ++ s2) = String.get 0 s2.
Proof. rewrite <- (Nat.add_0_r (String.length s1)); apply string_get_app_len. Qed.

(** The whitespace loop on a text whose rest is whitespace only runs off
    its end. *)
Lemma skip_whitespace_runs_off (w : string) :
  forall pre fuel p,
    src p = (pre ++ w)%string -> index p = String.length pre ->
    all_chars is_whitespace w = true -> (String.length w <= fuel)%nat ->
    skip_whitespace fuel p = Panic.
Proof.
  induction w as [|c w IH]; intros pre fuel p Hs Hi Hw Hf.
  - destruct fuel; simpl; unfold bind, current_char;
      rewrite Hs, Hi, string_get_at_len; reflexivity.
  - simpl in Hw, Hf; apply andb_true_iff in Hw as [Hc Hw].
    destruct fuel as [|fuel]; [lia|].
    simpl; unfold bind, current_char.
    rewrite Hs, Hi, string_get_at_len; simpl.
    rewrite Hc; unfold advance.
    apply (IH (pre ++ String c EmptyString)%string).
    + simpl; rewrite Hs, string_app_assoc; reflexivity.
    + simpl; rewrite string_length_app, Hi; simpl; lia.
    + exact Hw.
    + lia.
Qed.

Lemma string_app_empty_r (s : string) : (s ++ EmptyString)%string = s.
Proof. induction s as [|c s IH]; simpl; [reflexivity|rewrite IH; reflexivity]. Qed.

Lemma rev_rev_app_nil {A} (l : list A) : rev (rev l ++ []) = l.
Proof. rewrite app_nil_r, rev_involutive; reflexivity. Qed.


(** a text of one-character commands followed by a nonempty run of
    whitespace (a trailing newline, say) makes [parse] panic: the
    whitespace loop of [parse_one] reads past the end of the text. *)
Theorem parse_trailing_whitespace_panics (s w : string) (fl : DisableFlags)
    (Hs : all_chars unit_command s = true)
    (Hw : all_chars is_whitespace w = true) (Hne : w <> EmptyString) :
  parse (Parser_new (s ++ w) fl) = Panic.
Proof.
  unfold parse, bind; cbn [src pflag Parser_new].
  assert (Hl : String.length w <> 0%nat) by (destruct w; [congruence|discriminate]).
  replace (S (String.length (s ++ w))) with (String.length s + S (String.length w))%nat
    by (rewrite string_length_app; lia).
  rewrite (parse_top_units s EmptyString w _ [] (Parser_new (s ++ w) fl));
    cbn [index Parser_new src]; [|reflexivity|reflexivity|exact Hs].
  cbn [parse_top]; unfold set_index; cbn [index src Parser_new Nat.add].
  rewrite string_length_app.
  destruct (Nat.ltb_spec (String.length s) (String.length s + String.length w)); [|lia].
  unfold bind at 1; rewrite Nat.add_1_r; cbn [parse_one]; unfold bind at 1.
  cbn beta; cbn [src index].
  rewrite (skip_whitespace_runs_off w s); try reflexivity; try exact Hw.
  rewrite string_length_app; lia.
Qed.

(** after a run of one-character commands, a character that is not
    whitespace and not one of [+ - > < [ . ,] (a [] ], a letter, or a [{]
    when aliases are disabled) makes [parse] panic. *)
Theorem parse_unrecognised_panics (s r : string) (c : ascii) (fl : DisableFlags)
    (Hs : all_chars unit_command s = true)
    (Hc : is_whitespace c = false) (Hu : unit_command c = false)
    (Hb : c <> "["%char)
    (Ha : c = "{"%char -> disable_aliases fl = true) :
  parse (Parser_new (s ++ String c r) fl) = Panic.
Proof.
  unfold parse, bind; cbn [src pflag Parser_new].
  replace (S (String.length (s ++ String c r))) with
    (String.length s + S (S (String.length r)))%nat
    by (rewrite string_length_app; simpl; lia).
  rewrite (parse_top_units s EmptyString (String c r) _ [] (Parser_new (s ++ String c r) fl));
    cbn [index Parser_new src]; [|reflexivity|reflexivity|exact Hs].
  cbn [parse_top]; unfold set_index; cbn [index src Parser_new Nat.add].
  rewrite string_length_app.
  destruct (Nat.ltb_spec (String.length s) (String.length s + String.length (String c r)));
    [|simpl in *; lia].
  unfold bind at 1; rewrite Nat.add_1_r; cbn [parse_one]; unfold bind at 1.
  cbn beta; cbn [src index].
  rewrite (skip_whitespace_at _ _ c); [|cbn [src index]; apply string_get_at_len|exact Hc].
  unfold unit_command in Hu.
  repeat rewrite orb_false_iff in Hu.
  destruct Hu as [[[[[H1 H2] H3] H4] H5] H6].
  assert (H7 : Ascii.eqb c "[" = false) by (apply Ascii.eqb_neq; exact Hb).
  assert (H8 : (Ascii.eqb c "{" && negb (disable_aliases fl)) = false).
  { destruct (Ascii.eqb_spec c "{"); [rewrite Ha by assumption|]; reflexivity. }
  unfold get; rewrite H1, H2, H3, H4, H7, H5, H6; unfold bind; cbn [pflag Parser_new];
  rewrite H8; reflexivity.
Qed.

Definition not_close_brace (c : ascii) : bool := negb (Ascii.eqb c "}").

Lemma set_index_same (p : Parser) : set_index p (index p) = p.
Proof. destruct p; reflexivity. Qed.

(** The alias-name loop reads up to the first [}]. *)
Lemma read_alias_upto (name : string) :
  forall pre r fuel acc p,
    src p = (pre ++ name ++ String "}" r)%string -> index p = String.length pre ->
    all_chars not_close_brace name = true -> (String.length name <= fuel)%nat ->
    read_alias fuel acc p =
    Ok (set_index p (index p + String.length name)) (acc ++ name)%string.
Proof.
  induction name as [|c name IH]; intros pre r fuel acc p Hs Hi Hn Hf.
  - destruct fuel; simpl; unfold bind, current_char;
      rewrite Hs, Hi, string_get_at_len; simpl;
      rewrite Nat.add_0_r, <- Hi, set_index_same, string_app_empty_r; reflexivity.
  - simpl in Hn, Hf; apply andb_true_iff in Hn as [Hc Hn].
    unfold not_close_brace in Hc; apply negb_true_iff in Hc.
    destruct fuel as [|fuel]; [lia|].
    simpl; unfold bind, current_char.
    rewrite Hs, Hi, string_get_at_len; simpl; rewrite Hc; unfold advance.
    rewrite (IH (pre ++ String c EmptyString)%string r).
    + unfold set_index; simpl; rewrite string_app_assoc; simpl; f_equal; f_equal; lia.
    + simpl; rewrite Hs, string_app_assoc; reflexivity.
    + simpl; rewrite string_length_app, Hi; simpl; lia.
    + exact Hn.
    + lia.
Qed.

(** Without a [}] the alias-name loop runs off the end of the text. *)
Lemma read_alias_unterminated (name : string) :
  forall pre fuel acc p,
    src p = (pre ++ name)%string -> index p = String.length pre ->
    all_chars not_close_brace name = true -> (String.length name <= fuel)%nat ->
    read_alias fuel acc p = Panic.
Proof.
  induction name as [|c name IH]; intros pre fuel acc p Hs Hi Hn Hf.
  - destruct fuel; simpl; unfold bind, current_char;
      rewrite Hs, Hi, string_get_at_len; reflexivity.
  - simpl in Hn, Hf; apply andb_true_iff in Hn as [Hc Hn].
    unfold not_close_brace in Hc; apply negb_true_iff in Hc.
    destruct fuel as [|fuel]; [lia|].
    simpl; unfold bind, current_char.
    rewrite Hs, Hi, string_get_at_len; simpl; rewrite Hc; unfold advance.
    apply (IH (pre ++ String c EmptyString)%string).
    + simpl; rewrite Hs, string_app_assoc; reflexivity.
    + simpl; rewrite string_length_app, Hi; simpl; lia.
    + exact Hn.
    + lia.
Qed.

(** [parse_one] on an alias [{name}]. *)
Lemma parse_one_alias (f : nat) (p : Parser) (pre name r : string) :
  src p = (pre ++ String "{" (name ++ String "}" r))%string ->
  index p = String.length pre ->
  disable_aliases (pflag p) = false ->
  all_chars not_close_brace name = true ->
  parse_one (S f) p =
  Ok (mkParser (src p) (pflag p) (index p + String.length name + 2)
               (set_insert (p_aliases p) name))
     ((index p, (String.length name + 2)%nat), IGoto name).
Proof.
  intros Hs Hi Ha Hn; cbn [parse_one]; unfold bind at 1.
  assert (G : String.get (index p) (src p) = Some "{"%char)
    by (rewrite Hs, Hi, string_get_at_len; reflexivity).
  rewrite (skip_whitespace_at _ _ _ G) by reflexivity.
  unfold get, advance, bind; simpl; rewrite Ha; simpl.
  rewrite (read_alias_upto name (pre ++ String "{" EmptyString) r).
  - unfold ret, set_index; cbn [src pflag index p_aliases]; f_equal;
      [f_equal; lia|unfold mk_span; f_equal; f_equal; lia].
  - simpl; rewrite Hs, string_app_assoc; reflexivity.
  - simpl; rewrite string_length_app, Hi; simpl; lia.
  - exact Hn.
  - rewrite Hs, string_length_app; simpl; rewrite string_length_app; lia.
Qed.

(** [parse_one] on an alias without its closing brace. *)
Lemma parse_one_alias_unterminated (f : nat) (p : Parser) (pre name : string) :
  src p = (pre ++ String "{" name)%string ->
  index p = String.length pre ->
  disable_aliases (pflag p) = false ->
  all_chars not_close_brace name = true ->
  parse_one (S f) p = Panic.
Proof.
  intros Hs Hi Ha Hn; cbn [parse_one]; unfold bind at 1.
  assert (G : String.get (index p) (src p) = Some "{"%char)
    by (rewrite Hs, Hi, string_get_at_len; reflexivity).
  rewrite (skip_whitespace_at _ _ _ G) by reflexivity.
  unfold get, advance, bind; simpl; rewrite Ha; simpl.
  rewrite (read_alias_unterminated name (pre ++ String "{" EmptyString)); [reflexivity| | |exact Hn|].
  - simpl; rewrite Hs, string_app_assoc; reflexivity.
  - simpl; rewrite string_length_app, Hi; simpl; lia.
  - rewrite Hs, string_length_app; simpl; lia.
Qed.


(** ** Instances of the properties *)

Definition example_run_state : PState :=
  mkPState (set_ptr (set_cells (Tape_new (mkTapeFlags TCircular CCircular 4)) [1; 2; 3; 4]) 3)
           [] (mkDisableFlags false true true) [65; 66] [].

Definition example_program : list (Span * Instruction) :=
  [((0, 1)%nat, IInput); ((1, 1)%nat, IOutput); ((2, 1)%nat, IRight 1);
   ((3, 1)%nat, IAdd 3); ((4, 3)%nat, IGoto "x")].

Definition out_state {A} (o : outcome PState A) (dflt : PState) : PState :=
  match o with
  | Ok s _ => s
  | Err s _ => s
  | _ => dflt
  end.

Lemma add_sub_inverse_witness :
  get_value (tape_at TCircular CCircular 5 2) = Ok (tape_at TCircular CCircular 5 2) 0 /\
  0 <= 0 <= 255 /\ 0 <= 7 <= 255 /\
  cell_behaviour (tape_at TCircular CCircular 5 2) <> Nothing /\
  (forall t1, add 7 (tape_at TCircular CCircular 5 2) = Ok t1 tt ->
     sub 7 t1 = Ok (tape_at TCircular CCircular 5 2) tt) /\
  (forall t1, sub 7 (tape_at TCircular CCircular 5 2) = Ok t1 tt ->
     add 7 t1 = Ok (tape_at TCircular CCircular 5 2) tt) /\
  (cell_behaviour (tape_at TCircular CCircular 5 2) = CCircular ->
     (exists t1, add 7 (tape_at TCircular CCircular 5 2) = Ok t1 tt) /\
     (exists t1, sub 7 (tape_at TCircular CCircular 5 2) = Ok t1 tt)).
Proof.
  assert (Hv : get_value (tape_at TCircular CCircular 5 2) = Ok (tape_at TCircular CCircular 5 2) 0)
    by (vm_compute; reflexivity).
  assert (Hm : cell_behaviour (tape_at TCircular CCircular 5 2) <> Nothing) by discriminate.
  split; [exact Hv|]; split; [lia|]; split; [lia|]; split; [exact Hm|].
  exact (add_sub_inverse (tape_at TCircular CCircular 5 2) 7 0 Hv ltac:(lia) ltac:(lia) Hm).
Defined.

Lemma clamp_add_sub_saturate_witness :
  cell_behaviour (tape_at TCircular Nothing 5 2) = Nothing /\
  get_value (tape_at TCircular Nothing 5 2) = Ok (tape_at TCircular Nothing 5 2) 0 /\
  (forall c, exists t', add c (tape_at TCircular Nothing 5 2) = Ok t' tt /\
     get_value t' = Ok t' (Z.min (0 + c) 255)) /\
  (forall c, exists t', sub c (tape_at TCircular Nothing 5 2) = Ok t' tt /\
     get_value t' = Ok t' (Z.max (0 - c) 0)).
Proof.
  assert (Hv : get_value (tape_at TCircular Nothing 5 2) = Ok (tape_at TCircular Nothing 5 2) 0)
    by (vm_compute; reflexivity).
  split; [reflexivity|]; split; [exact Hv|].
  exact (clamp_add_sub_saturate (tape_at TCircular Nothing 5 2) 0 eq_refl Hv).
Defined.

Lemma fail_cells_checked_witness :
  cell_behaviour (tape_at TCircular CPanic 5 2) = CPanic /\
  get_value (tape_at TCircular CPanic 5 2) = Ok (tape_at TCircular CPanic 5 2) 0 /\
  (forall c, 255 < 0 + c ->
     add c (tape_at TCircular CPanic 5 2) = Err (tape_at TCircular CPanic 5 2)
       (mkBFError RuntimeError
          ("Cell " ++ show_Z (pointer (tape_at TCircular CPanic 5 2)) ++ " (value " ++ show_Z 0
           ++ ") would go above 0 if " ++ show_Z c ++ " were added")%string)) /\
  (forall c, 0 + c <= 255 ->
     exists t', add c (tape_at TCircular CPanic 5 2) = Ok t' tt /\ get_value t' = Ok t' (0 + c)) /\
  (forall c, 0 < c ->
     sub c (tape_at TCircular CPanic 5 2) = Err (tape_at TCircular CPanic 5 2)
       (mkBFError RuntimeError
          ("Cell " ++ show_Z (pointer (tape_at TCircular CPanic 5 2)) ++ " (value " ++ show_Z 0
           ++ ") would go below 255 if " ++ show_Z c ++ " were subtracted")%string)) /\
  (forall c, c <= 0 ->
     exists t', sub c (tape_at TCircular CPanic 5 2) = Ok t' tt /\ get_value t' = Ok t' (0 - c)).
Proof.
  assert (Hv : get_value (tape_at TCircular CPanic 5 2) = Ok (tape_at TCircular CPanic 5 2) 0)
    by (vm_compute; reflexivity).
  split; [reflexivity|]; split; [exact Hv|].
  exact (fail_cells_checked (tape_at TCircular CPanic 5 2) 0 eq_refl Hv).
Defined.

Lemma panic_tape_moves_witness :
  tape_behaviour (tape_at TPanic CCircular 5 2) = TPanic /\
  size (tape_at TPanic CCircular 5 2) < 2 ^ 128 /\
  (forall c, pointer (tape_at TPanic CCircular 5 2) < c ->
     left c (tape_at TPanic CCircular 5 2) = Err (tape_at TPanic CCircular 5 2)
       (mkBFError RuntimeError
          ("Tape pointer would be below 0 if moved left " ++ show_Z c
           ++ " spaces from " ++ show_Z (pointer (tape_at TPanic CCircular 5 2)))%string)) /\
  (forall c, c <= pointer (tape_at TPanic CCircular 5 2) ->
     left c (tape_at TPanic CCircular 5 2) =
     Ok (set_ptr (tape_at TPanic CCircular 5 2) (pointer (tape_at TPanic CCircular 5 2) - c)) tt) /\
  (forall c, size (tape_at TPanic CCircular 5 2) < pointer (tape_at TPanic CCircular 5 2) + c ->
     right c (tape_at TPanic CCircular 5 2) = Err (tape_at TPanic CCircular 5 2)
       (mkBFError RuntimeError
          ("Tape pointer would be above " ++ show_Z (tape_len (tape_at TPanic CCircular 5 2))
           ++ " if moved right " ++ show_Z c ++ " spaces from "
           ++ show_Z (pointer (tape_at TPanic CCircular 5 2)))%string)) /\
  (forall c, pointer (tape_at TPanic CCircular 5 2) + c <= size (tape_at TPanic CCircular 5 2) ->
     right c (tape_at TPanic CCircular 5 2) =
     Ok (set_ptr (tape_at TPanic CCircular 5 2) (pointer (tape_at TPanic CCircular 5 2) + c)) tt).
Proof.
  assert (Hs : size (tape_at TPanic CCircular 5 2) < 2 ^ 128) by (simpl; lia).
  split; [reflexivity|]; split; [exact Hs|].
  exact (panic_tape_moves (tape_at TPanic CCircular 5 2) eq_refl Hs).
Defined.

Lemma circular_left_wraps_witness :
  tape_behaviour (tape_at TCircular CCircular 5 2) = TCircular /\
  pointer_valid (tape_at TCircular CCircular 5 2) /\
  (forall c, 0 <= c <= tape_len (tape_at TCircular CCircular 5 2) ->
     exists t', left c (tape_at TCircular CCircular 5 2) = Ok t' tt /\
       pointer t' = (pointer (tape_at TCircular CCircular 5 2) - c)
                    mod tape_len (tape_at TCircular CCircular 5 2) /\
       cells t' = cells (tape_at TCircular CCircular 5 2)) /\
  (forall c, pointer (tape_at TCircular CCircular 5 2) + tape_len (tape_at TCircular CCircular 5 2) < c ->
     left c (tape_at TCircular CCircular 5 2) = Panic).
Proof.
  assert (Hv : pointer_valid (tape_at TCircular CCircular 5 2))
    by (unfold pointer_valid, tape_len, zlen; simpl; lia).
  split; [reflexivity|]; split; [exact Hv|].
  exact (circular_left_wraps (tape_at TCircular CCircular 5 2) eq_refl Hv).
Defined.


Lemma run_keeps_configuration_witness :
  exists st',
    (run 10 example_program example_run_state = Ok st' tt \/
     exists e, run 10 example_program example_run_state = Err st' e) /\
    size (tape st') = size (tape example_run_state) /\
    tape_behaviour (tape st') = tape_behaviour (tape example_run_state) /\
    cell_behaviour (tape st') = cell_behaviour (tape example_run_state) /\
    shift (tape st') = shift (tape example_run_state) /\ flag st' = flag example_run_state /\
    (exists o, output st' = output example_run_state ++ o) /\
    (exists i, input example_run_state = i ++ input st').
Proof.
  exists (out_state (run 10 example_program example_run_state) example_run_state).
  assert (Hr : run 10 example_program example_run_state =
               Ok (out_state (run 10 example_program example_run_state) example_run_state) tt \/
               exists e, run 10 example_program example_run_state =
               Err (out_state (run 10 example_program example_run_state) example_run_state) e)
    by (left; vm_compute; reflexivity).
  split; [exact Hr|].
  exact (run_keeps_configuration 10 example_program example_run_state _ Hr).
Defined.

Definition goto_example_state : PState :=
  mkPState (Tape_new (mkTapeFlags TCircular CCircular 4)) [("x"%string, 2)]
           (mkDisableFlags false false false) [] [].

Lemma goto_lands_on_binding_witness :
  exists st',
    run_one 1 (IGoto "x") goto_example_state = Ok st' tt /\
    get_by_left (aliases st') "x" = Some (pointer (tape st')).
Proof.
  exists (out_state (run_one 1 (IGoto "x") goto_example_state) goto_example_state).
  assert (H : run_one 1 (IGoto "x") goto_example_state =
              Ok (out_state (run_one 1 (IGoto "x") goto_example_state) goto_example_state) tt)
    by (vm_compute; reflexivity).
  split; [exact H|].
  exact (goto_lands_on_binding 0 "x" goto_example_state _ H).
Defined.

Definition full_tape_state : PState :=
  mkPState (set_cells (Tape_new (mkTapeFlags TCircular CCircular 2)) [1; 1])
           [] (mkDisableFlags false false true) [] [].

Lemma assign_alias_address_full_panics_witness :
  tape_len (tape full_tape_state) <= 2 ^ 64 /\
  (forall a, 0 <= a < tape_len (tape full_tape_state) -> ~ alias_eligible full_tape_state a) /\
  assign_alias_address "x" full_tape_state = Panic.
Proof.
  assert (Hlen : tape_len (tape full_tape_state) <= 2 ^ 64) by (vm_compute; discriminate).
  assert (Hfull : forall a, 0 <= a < tape_len (tape full_tape_state) ->
                  ~ alias_eligible full_tape_state a).
  { replace (tape_len (tape full_tape_state)) with 2 by reflexivity.
    intros a Ha [E _].
    assert (a = 0 \/ a = 1) as [A|A] by lia; subst a; discriminate E. }
  split; [exact Hlen|]; split; [exact Hfull|].
  exact (assign_alias_address_full_panics full_tape_state "x" Hlen Hfull).
Defined.

Definition fresh_state (n : Z) : PState :=
  mkPState (Tape_new (mkTapeFlags TCircular CCircular n)) [] (mkDisableFlags false false false) [] [].

Lemma prealloc_fresh_tape_witness :
  cells (tape (fresh_state 3)) = repeat 0 3 /\ aliases (fresh_state 3) = [] /\
  NoDup ["a"; "b"]%string /\ Z.of_nat 3 <= 2 ^ 64 /\
  ((List.length ["a"; "b"]%string <= 3)%nat ->
     exists st', run_prealloc ["a"; "b"]%string (fresh_state 3) = Ok st' tt /\
       tape st' = tape (fresh_state 3) /\
       forall i name, nth_error ["a"; "b"]%string i = Some name ->
         get_by_left (aliases st') name = Some (Z.of_nat 3 - 1 - Z.of_nat i)) /\
  ((3 < List.length ["a"; "b"]%string)%nat -> run_prealloc ["a"; "b"]%string (fresh_state 3) = Panic).
Proof.
  assert (Hc : cells (tape (fresh_state 3)) = repeat 0 3) by (vm_compute; reflexivity).
  assert (Hnd : NoDup ["a"; "b"]%string).
  { constructor; [simpl; intros [E|[]]; discriminate E|].
    constructor; [simpl; intros []|constructor]. }
  assert (HL : Z.of_nat 3 <= 2 ^ 64) by (simpl; lia).
  split; [exact Hc|]; split; [reflexivity|]; split; [exact Hnd|]; split; [exact HL|].
  exact (prealloc_fresh_tape ["a"; "b"]%string (fresh_state 3) 3 Hc eq_refl Hnd HL).
Defined.


Lemma parse_trailing_whitespace_panics_witness :
  all_chars unit_command "+." = true /\ all_chars is_whitespace " " = true /\
  " "%string <> EmptyString /\
  parse (Parser_new ("+." ++ " ") (flags_optimise true)) = Panic.
Proof.
  assert (Hne : " "%string <> EmptyString) by discriminate.
  split; [reflexivity|]; split; [reflexivity|]; split; [exact Hne|].
  exact (parse_trailing_whitespace_panics "+." " " (flags_optimise true) eq_refl eq_refl Hne).
Defined.

Lemma parse_unrecognised_panics_witness :
  all_chars unit_command "+" = true /\ is_whitespace "]" = false /\
  unit_command "]" = false /\ "]"%char <> "["%char /\
  ("]"%char = "{"%char -> disable_aliases (flags_optimise true) = true) /\
  parse (Parser_new ("+" ++ String "]" EmptyString) (flags_optimise true)) = Panic.
Proof.
  assert (Hb : "]"%char <> "["%char) by discriminate.
  assert (Ha : "]"%char = "{"%char -> disable_aliases (flags_optimise true) = true)
    by (intros E; discriminate E).
  split; [reflexivity|]; split; [reflexivity|]; split; [reflexivity|];
    split; [exact Hb|]; split; [exact Ha|].
  exact (parse_unrecognised_panics "+" EmptyString "]" (flags_optimise true)
           eq_refl eq_refl eq_refl Hb Ha).
Defined.

